(** * Shallow embedding of the real-time priority test and of getxattr01

    The first program releases N busy-looping SCHED_FIFO threads of
    increasing priority from a barrier, run after run, records when each
    started, when it ended and how many loops it completed, and checks that
    no thread started measurably later than a thread of lower priority.  The
    second is a three-case test of getxattr(2).

    The development follows the C sources: the globals of the program are
    the fields of one [state] record that every function threads
    explicitly, loops over task or run indices are fixpoints over the number
    of remaining iterations, and the three ways the C code can leave the
    model (reading a local that was never assigned, indexing a series out of
    its bounds, and asking the clock oracle for a reading it does not have)
    are the constructors of [fault] in a small error monad. *)

From Stdlib Require Import ZArith Lia Ascii String.
From stdpp Require Import base list numbers strings sorting.

Local Open Scope Z_scope.

(** ** Machine integers

    [unsigned long long] and [unsigned long] are 64 bits wide, [long] is the
    signed 64-bit type (LP64).  Unsigned arithmetic wraps; for the signed
    subtraction of [check_times] the two's-complement result is used. *)

Definition wrap_u64 (z : Z) : Z := z mod 2 ^ 64.
Definition wrap_s64 (z : Z) : Z := (z + 2 ^ 63) mod 2 ^ 64 - 2 ^ 63.
Definition sub_u64 (a b : Z) : Z := wrap_u64 (a - b).
Definition sub_long (a b : Z) : Z := wrap_s64 (a - b).

Definition in_long (z : Z) : Prop := - 2 ^ 63 <= z < 2 ^ 63.

(** ** Constants of librttest.h *)

(** Modelled from the spec: the unit constants of librttest.h, which is not
    among the sources; the clock counts nanoseconds, the defaults are given
    as 20 ms, 100 ms and 1 ms, and samples are kept in microseconds. *)
Definition NS_PER_US : Z := 1000.
(** Modelled from the spec: nanoseconds per millisecond (librttest.h). *)
Definition NS_PER_MS : Z := 1000000.

Definition INTERVAL : Z := wrap_u64 (100 * NS_PER_MS).
Definition RUN_INTERVAL : Z := wrap_u64 (20 * NS_PER_MS).
Definition NR_RUNS : Z := 50.
Definition PRIO_START : Z := 2.
Definition MAX_ERR : Z := 1000 * NS_PER_US.

(** Modelled from the spec: the MIN and MAX macros of the test library
    (tst_minmax.h is not among the sources), the two halves of "clamp". *)
Definition MIN (a b : Z) : Z := Z.min a b.
(** Modelled from the spec: see [MIN]. *)
Definition MAX (a b : Z) : Z := Z.max a b.

Definition CLAMP (x lower upper : Z) : Z := MIN upper (MAX x lower).

(** ** Faults and the error monad *)

Inductive fault : Type :=
| UninitRead      (* a local variable read before any assignment *)
| OutOfBounds     (* a task or run index outside its series *)
| ClockExhausted. (* the clock oracle has no further reading *)

Inductive res (A : Type) : Type :=
| Ok (a : A)
| Err (f : fault).
Arguments Ok {A} a.
Arguments Err {A} f.

#[global] Instance res_ret : MRet res := fun _ a => Ok a.
#[global] Instance res_bind : MBind res := fun _ _ k m =>
  match m with
  | Ok a => k a
  | Err f => Err f
  end.

(** [a\[i\]] for an array held as a list: outside the list the access is a
    fault, where C has undefined behaviour. *)
Definition index {A : Type} (a : list A) (i : Z) : res A :=
  if i <? 0 then Err OutOfBounds
  else match a !! Z.to_nat i with
       | Some v => Ok v
       | None => Err OutOfBounds
       end.

(** ** libstats containers *)

Record stats_record : Type := Rec { x : Z; y : Z }.

(** Modelled from the spec: a libstats sample series (libstats.h is not among
    the sources): an ordered, append-only sequence of (run index, value)
    pairs, pre-sized to [size] entries. *)
Record stats_container : Type := Container {
  size : Z;
  records : list stats_record
}.

(** Modelled from the spec: [stats_container_init] pre-sizes an empty
    series. *)
Definition stats_container_init (sz : Z) : stats_container :=
  {| size := sz; records := [] |}.

(** Modelled from the spec: [stats_container_append] adds one pair at the
    end of the series; a series that already holds [size] pairs takes no
    more. *)
Definition stats_container_append (c : stats_container) (r : stats_record)
  : stats_container :=
  if Z.of_nat (length (records c)) <? size c
  then {| size := size c; records := records c ++ [r] |}
  else c.

(** ** Global variables of the program *)

Record state : Type := State {
  nr_tasks : Z;
  interval : Z;
  run_interval : Z;
  max_err : Z;
  nr_runs : Z;
  prio_start : Z;
  prio_min : Z;
  prio_max : Z;
  check : Z;
  stop : Z;
  now : Z;
  done : Z;
  loop : Z;
  intervals : list stats_container;
  intervals_length : list stats_container;
  intervals_loops : list stats_container
}.

(** The values the statics have when the program starts; [nr_tasks] is set
    by [main]. *)
Definition initial_state (tasks : Z) : state :=
  {| nr_tasks := tasks;
     interval := INTERVAL; run_interval := RUN_INTERVAL;
     max_err := MAX_ERR; nr_runs := NR_RUNS;
     prio_start := PRIO_START; prio_min := 0; prio_max := 0;
     check := 1; stop := 0; now := 0; done := 0; loop := 0;
     intervals := []; intervals_length := []; intervals_loops := [] |}.

Definition set_run_interval (v : Z) (st : state) : state :=
  State (nr_tasks st) (interval st) v (max_err st) (nr_runs st)
        (prio_start st) (prio_min st) (prio_max st) (check st) (stop st)
        (now st) (done st) (loop st)
        (intervals st) (intervals_length st) (intervals_loops st).
Definition set_interval (v : Z) (st : state) : state :=
  State (nr_tasks st) v (run_interval st) (max_err st) (nr_runs st)
        (prio_start st) (prio_min st) (prio_max st) (check st) (stop st)
        (now st) (done st) (loop st)
        (intervals st) (intervals_length st) (intervals_loops st).
Definition set_max_err (v : Z) (st : state) : state :=
  State (nr_tasks st) (interval st) (run_interval st) v (nr_runs st)
        (prio_start st) (prio_min st) (prio_max st) (check st) (stop st)
        (now st) (done st) (loop st)
        (intervals st) (intervals_length st) (intervals_loops st).
Definition set_nr_runs (v : Z) (st : state) : state :=
  State (nr_tasks st) (interval st) (run_interval st) (max_err st) v
        (prio_start st) (prio_min st) (prio_max st) (check st) (stop st)
        (now st) (done st) (loop st)
        (intervals st) (intervals_length st) (intervals_loops st).
Definition set_prio_start (v : Z) (st : state) : state :=
  State (nr_tasks st) (interval st) (run_interval st) (max_err st) (nr_runs st)
        v (prio_min st) (prio_max st) (check st) (stop st)
        (now st) (done st) (loop st)
        (intervals st) (intervals_length st) (intervals_loops st).
Definition set_prio_range (lo hi : Z) (st : state) : state :=
  State (nr_tasks st) (interval st) (run_interval st) (max_err st) (nr_runs st)
        (prio_start st) lo hi (check st) (stop st)
        (now st) (done st) (loop st)
        (intervals st) (intervals_length st) (intervals_loops st).
Definition set_check (v : Z) (st : state) : state :=
  State (nr_tasks st) (interval st) (run_interval st) (max_err st) (nr_runs st)
        (prio_start st) (prio_min st) (prio_max st) v (stop st)
        (now st) (done st) (loop st)
        (intervals st) (intervals_length st) (intervals_loops st).
Definition set_stop (v : Z) (st : state) : state :=
  State (nr_tasks st) (interval st) (run_interval st) (max_err st) (nr_runs st)
        (prio_start st) (prio_min st) (prio_max st) (check st) v
        (now st) (done st) (loop st)
        (intervals st) (intervals_length st) (intervals_loops st).
Definition set_now (v : Z) (st : state) : state :=
  State (nr_tasks st) (interval st) (run_interval st) (max_err st) (nr_runs st)
        (prio_start st) (prio_min st) (prio_max st) (check st) (stop st)
        v (done st) (loop st)
        (intervals st) (intervals_length st) (intervals_loops st).
Definition set_done (v : Z) (st : state) : state :=
  State (nr_tasks st) (interval st) (run_interval st) (max_err st) (nr_runs st)
        (prio_start st) (prio_min st) (prio_max st) (check st) (stop st)
        (now st) v (loop st)
        (intervals st) (intervals_length st) (intervals_loops st).
Definition set_loop (v : Z) (st : state) : state :=
  State (nr_tasks st) (interval st) (run_interval st) (max_err st) (nr_runs st)
        (prio_start st) (prio_min st) (prio_max st) (check st) (stop st)
        (now st) (done st) v
        (intervals st) (intervals_length st) (intervals_loops st).
Definition set_series (a b c : list stats_container) (st : state) : state :=
  State (nr_tasks st) (interval st) (run_interval st) (max_err st) (nr_runs st)
        (prio_start st) (prio_min st) (prio_max st) (check st) (stop st)
        (now st) (done st) (loop st) a b c.

(** ** check_times *)

(** [series\[i\].records\[l\].y] *)
Definition sample (series : list stats_container) (i l : Z) : res Z :=
  c ← index series i;
  r ← index (records c) l;
  mret (y r).

(** The three locals of [check_times]; [None] until the first assignment
    in the current call. *)
Record ct_locals : Type := Locals {
  last : option Z;
  last_loops : option Z;
  last_length : option Z
}.

Definition rd (v : option Z) : res Z :=
  match v with
  | Some z => Ok z
  | None => Err UninitRead
  end.

Fixpoint check_times_loop (n : nat) (i : Z) (loc : ct_locals)
    (st : state) (l : Z) : res (Z * state) :=
  match n with
  | O => Ok (0, st)
  | S n' =>
    cand ← (if i =? 0 then Ok false
            else
              la ← rd (last loc);
              s ← sample (intervals st) i l;
              if la <? s then Ok (max_err st <? sub_long s la)
              else Ok false);
    viol ← (if cand : bool then
              lo ← sample (intervals_loops st) i l;
              ll ← rd (last_loops loc);
              if lo <? ll then Ok true
              else
                s ← sample (intervals st) i l;
                le ← rd (last_length loc);
                if le <? s then Ok true
                else
                  len ← sample (intervals_length st) i l;
                  if le <? len then Ok (max_err st <? sub_long len le)
                  else Ok false
            else Ok false);
    if viol : bool then Ok (1, set_check (-1) st)
    else
      s ← sample (intervals st) i l;
      lo ← sample (intervals_loops st) i l;
      len ← sample (intervals_length st) i l;
      check_times_loop n' (i + 1)
        {| last := Some s; last_loops := Some lo; last_length := Some len |}
        st l
  end.

Definition check_times (st : state) (l : Z) : res (Z * state) :=
  check_times_loop (Z.to_nat (nr_tasks st)) 0
    {| last := None; last_loops := None; last_length := None |} st l.

(** ** parse_args

    [v] is the value [atoi] returns for the option's argument. *)

Definition usage_requested (c : ascii) : bool :=
  (Ascii.eqb c "?" || Ascii.eqb c "h")%char.

Definition parse_args (c : ascii) (v : Z) (st : state) : Z * state :=
  if Ascii.eqb c "a" then (1, set_prio_start v st)
  else if Ascii.eqb c "r" then (1, set_run_interval (wrap_u64 v) st)
  else if Ascii.eqb c "t" then (1, set_interval (wrap_u64 v) st)
  else if Ascii.eqb c "l" then (1, set_nr_runs v st)
  else if Ascii.eqb c "e" then (1, set_max_err (v * NS_PER_US) st)
  else if usage_requested c then (0, st)
  else (1, st).

(** ** The clock

    [rt_gettime] is an input of the program: each thread is given the list
    of readings (in nanoseconds) its successive calls return. *)

Definition rt_gettime (clk : list Z) : res (Z * list Z) :=
  match clk with
  | [] => Err ClockExhausted
  | t :: clk' => Ok (wrap_u64 t, clk')
  end.

(** ** busy_loop

    The [do ... while] loop: [l] is the counter so far, every iteration
    increments it and takes one reading. *)

Fixpoint busy_loop_from (l : Z) (start_time : Z) (clk : list Z)
  : res (Z * list Z) :=
  match clk with
  | [] => Err ClockExhausted
  | t :: clk' =>
    let l := wrap_u64 (l + 1) in
    let time := wrap_u64 t in
    if sub_u64 time start_time <? RUN_INTERVAL
    then busy_loop_from l start_time clk'
    else Ok (l, clk')
  end.

Definition busy_loop (start_time : Z) (clk : list Z) : res (Z * list Z) :=
  busy_loop_from 0 start_time clk.

(** ** record_time *)

Definition append_at (series : list stats_container) (id : Z)
    (r : stats_record) : res (list stats_container) :=
  c ← index series id;
  mret (<[Z.to_nat id := stats_container_append c r]> series).

Definition record_time (id time l : Z) (clk : list Z) (st : state)
  : res (list Z * state) :=
  if nr_runs st <=? loop st then Ok (clk, st)
  else
    let time := sub_u64 time (now st) in
    '(t, clk) ← rt_gettime clk;
    let ltime := t / NS_PER_US in
    let ltime := sub_u64 ltime (now st) in
    a ← append_at (intervals st) id
          {| x := loop st; y := wrap_s64 time |};
    b ← append_at (intervals_length st) id
          {| x := loop st; y := wrap_s64 ltime |};
    c ← append_at (intervals_loops st) id
          {| x := loop st; y := wrap_s64 l |};
    mret (clk, set_series a b c st).

(** ** start_task: one pass through the body of [while (!done)]

    The CPU rotation of the highest-priority task and the trace marker
    touch no variable of the model and are left out.  The pass returns the
    barrier waits the worker performed, in order. *)

Inductive barrier : Type := start_barrier | end_barrier.

Inductive event : Type := Wait (id : Z) (b : barrier).

Definition start_task_iter (id : Z) (clk : list Z) (st : state)
  : res (list event * list Z * state) :=
  let ev1 := Wait id start_barrier in
  '(start_time, clk) ← rt_gettime clk;
  '(l, clk) ← busy_loop start_time clk;
  '(clk, st) ← record_time id (start_time / NS_PER_US) l clk st;
  let ev2 := Wait id end_barrier in
  mret ([ev1; ev2], clk, st).

(** ** stop_log, the SIGINT handler *)

Definition stop_log (sig : Z) (st : state) : state := set_stop 0 st.

Definition SIGINT : Z := 2.

(** ** run_test

    Between the start barrier and the end barrier of a run the coordinator
    sleeps and writes none of the globals the workers read, and every worker
    passes once through its loop body; the workers write disjoint series.
    A run is therefore given by the coordinator's epoch reading, the number
    of interrupt signals delivered before the coordinator looks at [stop],
    and the workers in the order in which they reach [record_time], each
    with its own clock readings. *)

Record run_obs : Type := RunObs {
  epoch : Z;
  sigints : nat;
  sched : list (Z * list Z)
}.

Fixpoint run_workers (sch : list (Z * list Z)) (st : state) : res state :=
  match sch with
  | [] => Ok st
  | (id, clk) :: sch' =>
    '(_, _, st) ← start_task_iter id clk st;
    run_workers sch' st
  end.

Fixpoint deliver (n : nat) (st : state) : state :=
  match n with
  | O => st
  | S n' => deliver n' (stop_log SIGINT st)
  end.

(** [stop || (check && check_times(loop))] *)
Definition run_boundary (st : state) : res (bool * state) :=
  if negb (stop st =? 0) then Ok (true, st)
  else if check st =? 0 then Ok (false, st)
  else
    '(r, st) ← check_times st (loop st);
    mret (negb (r =? 0), st).

(** The body of the [for] loop over the runs, up to and including the [if]
    that may leave it; the flag tells whether [break] was taken.  Inside the
    body [loop < nr_runs] holds, so that [loop + 1] is an [int]. *)
Definition run_body (o : run_obs) (st : state) : res (bool * state) :=
  let st := set_now (wrap_u64 (epoch o) / NS_PER_US) st in
  st ← run_workers (sched o) st;
  let st := deliver (sigints o) st in
  '(brk, st) ← run_boundary st;
  if brk : bool then
    let st := set_loop (loop st + 1) st in
    Ok (true, set_nr_runs (loop st) st)
  else Ok (false, st).

(** The [for] loop, entered with [loop] already set. *)
Fixpoint run_loop (obs : list run_obs) (st : state) : res state :=
  if loop st <? nr_runs st then
    match obs with
    | [] => Err ClockExhausted
    | o :: obs' =>
      '(brk, st) ← run_body o st;
      if brk : bool then Ok st
      else run_loop obs' (set_loop (loop st + 1) st)
    end
  else Ok st.

Definition CLAMP_PRIO (st : state) (prio : Z) : Z :=
  CLAMP prio (prio_min st) (prio_max st).

(** The priority [create_fifo_thread] is given for task [i]. *)
Definition worker_prio (st : state) (i : Z) : Z :=
  CLAMP_PRIO st (prio_start st + i).

(** The priority the coordinator asks of [sched_setscheduler]. *)
Definition coordinator_prio (st : state) : Z :=
  CLAMP (nr_tasks st + prio_start st) (prio_min st) (prio_max st + 1).

(** The part of [run_test] before the first thread is created: the
    priority range and the empty, pre-sized series. *)
Definition run_test_init (sched_min sched_max : Z) (st : state) : state :=
  let st := set_prio_range sched_min (sched_max - 1) st in
  let fresh := replicate (Z.to_nat (nr_tasks st))
                 (stats_container_init (nr_runs st)) in
  set_series fresh fresh fresh st.

Inductive ttype : Type := TPASS | TFAIL.

(** One block of the table [print_details] prints for run [iter]. *)
Record row : Type := Row {
  iter : Z;
  row_start : list Z;
  row_len : list Z;
  row_loops : list Z
}.

Definition print_row (st : state) (i : Z) : res row :=
  a ← mapM (λ t, sample (intervals st) t i) (seqZ 0 (nr_tasks st));
  b ← mapM (λ t, sample (intervals_length st) t i) (seqZ 0 (nr_tasks st));
  c ← mapM (λ t, sample (intervals_loops st) t i) (seqZ 0 (nr_tasks st));
  mret (Row i a b c).

Definition print_details (st : state) : res (list row) :=
  mapM (print_row st) (seqZ 0 (nr_runs st)).

Record test_result : Type := TestResult {
  final : state;
  worker_prios : list Z;   (* priority given to [create_fifo_thread] *)
  main_prio : Z;           (* priority asked of [sched_setscheduler] *)
  report : list row;
  verdict : ttype
}.

(** [sched_min] and [sched_max] are what [sched_get_priority_min] and
    [sched_get_priority_max] return for SCHED_FIFO; [last_round] is the
    workers' schedule of the release after the loop. *)
Definition run_test (sched_min sched_max : Z) (obs : list run_obs)
    (last_round : list (Z * list Z)) (st : state) : res test_result :=
  let st := run_test_init sched_min sched_max st in
  let prios := worker_prio st <$> seqZ 0 (nr_tasks st) in
  let mprio := coordinator_prio st in
  st ← run_loop obs (set_loop 0 st);
  st ← run_workers last_round st;
  let st := set_done 1 st in
  rows ← print_details st;
  mret {| final := st; worker_prios := prios; main_prio := mprio;
          report := rows;
          verdict := if check st <? 0 then TFAIL else TPASS |}.

(** * getxattr01 *)

Module Getxattr01.

Definition MNTPOINT : string := "mntpoint".
Definition FNAME : string := MNTPOINT ++ "/getxattr01testfile".
Definition XATTR_TEST_KEY : string := "user.testkey".
Definition XATTR_TEST_VALUE : string := "this is a test value".
Definition XATTR_TEST_VALUE_SIZE : Z := 20.
Definition BUFFSIZE : Z := 64.

(** errno values of Linux (asm-generic/errno.h, errno-base.h). *)
Definition ENODATA : Z := 61.
Definition ERANGE : Z := 34.

(** A string literal as the [char] array it denotes, with its terminator. *)
Definition literal (s : string) : list ascii :=
  list_ascii_of_string s ++ [Ascii.zero].

Fixpoint strlen (s : list ascii) : Z :=
  match s with
  | [] => 0
  | c :: s' => if Ascii.eqb c Ascii.zero then 0 else 1 + strlen s'
  end.

Fixpoint memcmp (s1 s2 : list ascii) (n : nat) {struct n} : res Z :=
  match n with
  | O => Ok 0
  | S n' =>
    match s1, s2 with
    | a :: s1', b :: s2' =>
      if Ascii.eqb a b then memcmp s1' s2' n'
      else Ok (Z.of_nat (nat_of_ascii a) - Z.of_nat (nat_of_ascii b))
    | _, _ => Err OutOfBounds
    end
  end.

Record test_case : Type := TestCase {
  key : string;
  value : list ascii;
  size : Z;
  exp_err : Z
}.

Definition tcases : list test_case :=
  [ {| key := "user.nosuchkey"; value := replicate (Z.to_nat BUFFSIZE) Ascii.zero;
       size := BUFFSIZE - 1; exp_err := ENODATA |};
    {| key := XATTR_TEST_KEY; value := replicate (Z.to_nat BUFFSIZE) Ascii.zero;
       size := 1; exp_err := ERANGE |};
    {| key := XATTR_TEST_KEY; value := replicate (Z.to_nat BUFFSIZE) Ascii.zero;
       size := BUFFSIZE - 1; exp_err := 0 |} ].

(** What one [getxattr] call does: its return value, [errno] after the call
    (the TEST macro clears it before), and the bytes the kernel stored at the
    start of the caller's buffer. *)
Record getxattr_out : Type := GetxattrOut {
  ret : Z;
  err : Z;
  written : list ascii
}.

(** The system call, as the environment provides it: path, name, the
    buffer and its size. *)
Definition syscall : Type := string → string → list ascii → Z → getxattr_out.

(** The buffer after the call: the stored bytes replace a prefix, the
    array keeps its length. *)
Definition fill (old new : list ascii) : list ascii :=
  take (length old) (new ++ drop (length new) old).

(** A result handed to [tst_res]: its type, whether TTERRNO is or-ed in,
    and the message. *)
Record result : Type := Result {
  rtype : ttype;
  with_errno : bool;
  msg : string
}.

(** Modelled from the spec: the TST_EXP_EQ_LI macro of tst_test_macros.h
    (not among the sources) reports pass when its two arguments are equal
    and fail otherwise. *)
Definition TST_EXP_EQ_LI (a b : Z) : result :=
  if a =? b then Result TPASS false "TST_RET == XATTR_TEST_VALUE_SIZE"
  else Result TFAIL false "TST_RET != XATTR_TEST_VALUE_SIZE".

Definition run (getxattr : syscall) (i : Z) (tcs : list test_case)
  : res (list result * list test_case) :=
  tc ← index tcs i;
  let out := getxattr FNAME (key tc) (value tc) (size tc) in
  let tc := {| key := key tc; value := fill (value tc) (written out);
               size := size tc; exp_err := exp_err tc |} in
  let tcs := <[Z.to_nat i := tc]> tcs in
  let r1 := if err out =? exp_err tc
            then Result TPASS true "expected getxattr() return code"
            else Result TFAIL true "unexpected getxattr() return code" in
  if negb (exp_err tc =? 0) then Ok ([r1], tcs)
  else
    let r2 := TST_EXP_EQ_LI (ret out) XATTR_TEST_VALUE_SIZE in
    d ← memcmp (value tc) (literal XATTR_TEST_VALUE)
          (Z.to_nat XATTR_TEST_VALUE_SIZE);
    let r3 := if negb (d =? 0) then Result TFAIL false "wrong value"
              else Result TPASS false "right value" in
    mret ([r1; r2; r3], tcs).

(** [setup] creates the file and sets one attribute; the model returns the
    (path, name, value) of that [setxattr] call. *)
Definition setup : string * string * list ascii :=
  (FNAME, XATTR_TEST_KEY,
   take (Z.to_nat (strlen (literal XATTR_TEST_VALUE)))
        (literal XATTR_TEST_VALUE)).

End Getxattr01.

(** * Vocabulary of the statements *)

Definition val (r : res Z) : Z :=
  match r with
  | Ok z => z
  | Err _ => 0
  end.

(** The samples of task [i] for run [l]: start offset, the value of the
    second series, and loop count. *)
Definition start_at (st : state) (i l : Z) : Z := val (sample (intervals st) i l).
Definition length_at (st : state) (i l : Z) : Z :=
  val (sample (intervals_length st) i l).
Definition loops_at (st : state) (i l : Z) : Z :=
  val (sample (intervals_loops st) i l).

Definition has_sample (series : list stats_container) (i l : Z) : Prop :=
  ∃ v, sample series i l = Ok v.

(** Run [l] is complete: every task has its three samples. *)
Definition run_recorded (st : state) (l : Z) : Prop :=
  ∀ i, 0 <= i < nr_tasks st →
    has_sample (intervals st) i l ∧
    has_sample (intervals_length st) i l ∧
    has_sample (intervals_loops st) i l.

(** Task [i] started later than task [i - 1] by more than [max_err]. *)
Definition candidate (st : state) (l i : Z) : Prop :=
  start_at st (i - 1) l < start_at st i l ∧
  max_err st < sub_long (start_at st i l) (start_at st (i - 1) l).

(** The three tests [check_times] applies to a candidate. *)
Definition fewer_loops (st : state) (l i : Z) : Prop :=
  loops_at st i l < loops_at st (i - 1) l.
Definition starts_after_end (st : state) (l i : Z) : Prop :=
  length_at st (i - 1) l < start_at st i l.
Definition ends_later (st : state) (l i : Z) : Prop :=
  length_at st (i - 1) l < length_at st i l ∧
  max_err st < sub_long (length_at st i l) (length_at st (i - 1) l).

Definition violation_at (st : state) (l i : Z) : Prop :=
  candidate st l i ∧
  (fewer_loops st l i ∨ starts_after_end st l i ∨ ends_later st l i).

Definition violation (st : state) (l : Z) : Prop :=
  ∃ i, 0 < i < nr_tasks st ∧ violation_at st l i.

(** The locals of [check_times] once task [k] of run [l] has been
    visited. *)
Definition locals_of (st : state) (l k : Z) : ct_locals :=
  {| last := Some (start_at st k l);
     last_loops := Some (loops_at st k l);
     last_length := Some (length_at st k l) |}.

(** Every series of every task holds exactly [k] samples. *)
Definition all_hold (k : Z) (series : list stats_container) : Prop :=
  Forall (λ c, Z.of_nat (length (records c)) = k) series.

Definition recorded_runs (st : state) (k : Z) : Prop :=
  all_hold k (intervals st) ∧ all_hold k (intervals_length st) ∧
  all_hold k (intervals_loops st).

(** One series per task, each with room for [nr_runs] samples. *)
Definition series_ready (st : state) (series : list stats_container) : Prop :=
  length series = Z.to_nat (nr_tasks st) ∧
  Forall (λ c, nr_runs st <= size c) series.

Definition series_wf (st : state) : Prop :=
  series_ready st (intervals st) ∧ series_ready st (intervals_length st) ∧
  series_ready st (intervals_loops st).

(** The clock of a worker's pass: a first reading, later one that is at
    least RUN_INTERVAL after it, and one more for [record_time]. *)
Definition clock_ok (clk : list Z) : Prop :=
  ∃ t0 pre t1 t2 rest,
    clk = t0 :: pre ++ t1 :: t2 :: rest ∧
    RUN_INTERVAL <= sub_u64 (wrap_u64 t1) (wrap_u64 t0).

(** What the two barriers guarantee for one release among [n] tasks: every
    worker passes exactly once through its loop body. *)
Definition round_ok (n : Z) (sch : list (Z * list Z)) : Prop :=
  sch.*1 ≡ₚ seqZ 0 n ∧ Forall clock_ok sch.*2.

(** In the middle of run [k], when the tasks in [D] have recorded and the
    others have not: a series has [n] containers, each with room for [cap]
    samples, holding [k + 1] samples for a task in [D] and [k] otherwise. *)
Definition held (k cap : Z) (n : nat) (D : list Z)
    (series : list stats_container) : Prop :=
  length series = n ∧
  ∀ j c, series !! j = Some c →
    cap <= size c ∧
    Z.of_nat (length (records c)) =
      k + (if decide (Z.of_nat j ∈ D) then 1 else 0).

Definition round_inv (st : state) (D : list Z) : Prop :=
  held (loop st) (nr_runs st) (Z.to_nat (nr_tasks st)) D (intervals st) ∧
  held (loop st) (nr_runs st) (Z.to_nat (nr_tasks st)) D (intervals_length st) ∧
  held (loop st) (nr_runs st) (Z.to_nat (nr_tasks st)) D (intervals_loops st).

(** At a run boundary [loop] counts the completed runs. *)
Definition boundary_inv (st : state) : Prop :=
  0 <= loop st <= nr_runs st ∧ round_inv st [].

(** [st'] differs from [st] in the three series at most. *)
Definition same_globals (st st' : state) : Prop :=
  st' = set_series (intervals st') (intervals_length st') (intervals_loops st') st.

(** The samples of the runs before [k] are the same in [st] and [st']. *)
Definition same_samples_below (k : Z) (st st' : state) : Prop :=
  ∀ i l, 0 <= l < k →
    sample (intervals st') i l = sample (intervals st) i l ∧
    sample (intervals_length st') i l = sample (intervals_length st) i l ∧
    sample (intervals_loops st') i l = sample (intervals_loops st) i l.

(** The states of the coordinator at the run boundaries of an execution of
    [run_test] from [cfg]: before the first run, after each run that goes
    on, and after the run that leaves the loop. *)
Inductive at_boundary (smin smax : Z) (cfg : state) : state → Prop :=
| boundary_first :
    at_boundary smin smax cfg (set_loop 0 (run_test_init smin smax cfg))
| boundary_next st o st' :
    at_boundary smin smax cfg st →
    loop st < nr_runs st →
    (sched o).*1 ≡ₚ seqZ 0 (nr_tasks st) →
    run_body o st = Ok (false, st') →
    at_boundary smin smax cfg (set_loop (loop st' + 1) st')
| boundary_break st o st' :
    at_boundary smin smax cfg st →
    loop st < nr_runs st →
    (sched o).*1 ≡ₚ seqZ 0 (nr_tasks st) →
    run_body o st = Ok (true, st') →
    at_boundary smin smax cfg st'.

(** * Concrete configurations used in the examples *)

(** Two tasks, one run on record: task 1 starts 1999990 after task 0, both
    report the same loop count and the same end offset. *)
Definition late_start_state : state :=
  set_series
    [ Container 1 [Rec 0 10]; Container 1 [Rec 0 2000000] ]
    [ Container 1 [Rec 0 3000000]; Container 1 [Rec 0 3000000] ]
    [ Container 1 [Rec 0 7]; Container 1 [Rec 0 7] ]
    (set_nr_runs 1 (initial_state 2)).

(** As [late_start_state], but task 1 completed fewer loops than task 0. *)
Definition preempted_state : state :=
  set_series
    [ Container 1 [Rec 0 10]; Container 1 [Rec 0 2000000] ]
    [ Container 1 [Rec 0 3000000]; Container 1 [Rec 0 3000000] ]
    [ Container 1 [Rec 0 7]; Container 1 [Rec 0 5] ]
    (set_nr_runs 1 (initial_state 2)).

(** A worker's clock for one pass, in nanoseconds: start at [t], one
    reading inside the busy interval, the reading 20 ms after the start that
    ends it, and the reading [record_time] takes 5 us later. *)
Definition pass_clock (t : Z) : list Z :=
  [t; t + 1000; t + 20 * NS_PER_MS; t + 20 * NS_PER_MS + 5000].

(** A calm run released at [t]: the workers [ids] pass in that order and
    all start 2 us after the epoch; [signals] interrupts arrive meanwhile. *)
Definition calm_run (ids : list Z) (t : Z) (signals : nat) : run_obs :=
  {| epoch := t; sigints := signals;
     sched := (λ i, (i, pass_clock (t + 2000))) <$> ids |}.

(** A run released at [t] in which task 0 passes as in a calm run and
    task 1 starts two seconds late and completes one loop only. *)
Definition late_run (t : Z) : run_obs :=
  {| epoch := t; sigints := 0;
     sched := [ (0, pass_clock (t + 2000));
                (1, [ t + 2000002000;
                      t + 2000002000 + 20 * NS_PER_MS;
                      t + 2000002000 + 20 * NS_PER_MS + 5000 ]) ] |}.

(** Every sample of a series carries, as its [x], its position in the
    series. *)
Definition tagged (series : list stats_container) : Prop :=
  ∀ (j : nat) c (k : nat) r,
    series !! j = Some c → records c !! k = Some r → x r = Z.of_nat k.

Definition all_tagged (st : state) : Prop :=
  tagged (intervals st) ∧ tagged (intervals_length st) ∧
  tagged (intervals_loops st).

Definition calm_last : list (Z * list Z) :=
  [(0, pass_clock 600000000); (1, pass_clock 600000000)].
Definition calm_cfg : state := (parse_args "l" 3 (initial_state 2)).2.

(** * Further code of the two files *)

(** ** print_progress_bar

    The characters written to stderr.  [percent] and [p] are [int]s; the
    product is taken in 32 bits and the division truncates. *)

Definition wrap_s32 (z : Z) : Z := (z + 2 ^ 31) mod 2 ^ 32 - 2 ^ 31.

Definition PROGRESS_CHARS : Z := 70.

Definition print_progress_bar (percent : Z) : list ascii :=
  let percent := if 100 <? percent then 100 else percent in
  let p := Z.quot (wrap_s32 (PROGRESS_CHARS * percent)) 100 in
  (["013"; "|"] ++ replicate (Z.to_nat PROGRESS_CHARS) " " ++
   ["|"; "013"; "|"] ++ replicate (Z.to_nat p) "-")%char.

(** The empty frame: carriage return, bar, 70 blanks, bar, carriage
    return, bar. *)
Definition bar_frame : list ascii :=
  (["013"; "|"] ++ replicate 70 " " ++ ["|"; "013"; "|"])%char.

(** The argument [run_test] passes inside the run loop:
    [(loop * 100) / nr_runs]. *)
Definition progress_percent (st : state) : Z :=
  Z.quot (wrap_s32 (loop st * 100)) (nr_runs st).

(** ** setup_ftrace_marker and ftrace_write

    [stat] and [open] are the system calls, given by what they return for
    a path; [mark_fd] is the static of that name. *)

Definition marker_files : list string :=
  [ "/sys/kernel/debug/tracing/trace_marker";
    "/debug/tracing/trace_marker";
    "/debugfs/tracing/trace_marker" ]%string.

(** The [for] loop with its [goto found]. *)
Fixpoint find_marker (stat : string → Z) (files : list string)
  : option string :=
  match files with
  | [] => None
  | f :: files' => if 0 <=? stat f then Some f else find_marker stat files'
  end.

Definition setup_ftrace_marker (stat open : string → Z) (mark_fd : Z) : Z :=
  match find_marker stat marker_files with
  | None => mark_fd
  | Some f => open f
  end.

(** [n] is what [vsnprintf] returns for the message; the result is the
    [write] call made, as descriptor and byte count, if one is made. *)
Definition ftrace_write (mark_fd : Z) (n : Z) : option (Z * Z) :=
  if mark_fd <? 0 then None else Some (mark_fd, n).

(** ** start_task: the CPU rotation of the highest-priority task

    [save_cpumask] is the affinity mask read at thread start, as the
    predicate CPU_ISSET computes; the result is the CPU the thread pins
    itself to for this pass and the value of [cpu] afterwards. *)

Definition rotate_cpu (save_cpumask : Z → bool) (cpu : Z) : Z * Z :=
  let cpu := if save_cpumask cpu then cpu else 0 in
  (cpu, cpu + 1).

(** The CPUs of the first [passes] passes, [cpu] being 0 at the first. *)
Fixpoint rotation (save_cpumask : Z → bool) (cpu : Z) (passes : nat)
  : list Z :=
  match passes with
  | O => []
  | S n =>
    let '(pinned, cpu) := rotate_cpu save_cpumask cpu in
    pinned :: rotation save_cpumask cpu n
  end.

(** * getxattr02 *)

Module Getxattr02.

Definition MNTPOINT : string := "mntpoint".
Definition XATTR_TEST_KEY : string := "user.testkey".
Definition FIFO : string := "getxattr02fifo".
Definition CHR : string := "getxattr02chr".
Definition BLK : string := "getxattr02blk".
Definition SOCK : string := "getxattr02sock".

(** errno values of Linux. *)
Definition ENODATA : Z := 61.
Definition ENOTSUP : Z := 95.

Definition tcases : list string := [FIFO; CHR; BLK; SOCK].

(** The system calls [run] makes, in the order it makes them. *)
Inductive call : Type :=
| Chdir (dir : string)
| Creat (path : string)
| Close
| Setxattr (path name value : string)
| Unlink (path : string)
| Mknod (path : string)
| Getxattr (path name : string).

(** What the environment answers: return value and errno of the probing
    [setxattr], the return value of [mknod] per path, return value and errno
    of [getxattr] per path. *)
Record env : Type := Env {
  setxattr : Z * Z;
  mknod : string → Z;
  getxattr : string → Z * Z
}.

(** The two ways [tst_brk] ends the test here. *)
Inductive brk : Type := TCONF | TBROK.

Inductive outcome : Type :=
| Reported (calls : list call) (r : Getxattr01.result)
| Broke (calls : list call) (b : brk).

(** The four [mknod] statements, in their order; the path that failed, if
    one did. *)
Fixpoint make_nodes (e : env) (files : list string) (calls : list call)
  : list call * option string :=
  match files with
  | [] => (calls, None)
  | f :: files' =>
    let calls := calls ++ [Mknod f] in
    if mknod e f <? 0 then (calls, Some f) else make_nodes e files' calls
  end.

(** The part of [run] under [if (i == 0)]: either the test is broken or
    the calls made so far are returned. *)
Definition prepare (e : env) (calls : list call) : outcome + list call :=
  let calls := calls ++ [Creat "testfile"; Close;
                         Setxattr "testfile" "user.test" "test"] in
  if (setxattr e).1 <? 0 then
    if (setxattr e).2 =? ENOTSUP then inl (Broke calls TCONF)
    else inl (Broke calls TBROK)
  else
    let calls := calls ++ [Unlink "testfile"] in
    match make_nodes e [FIFO; CHR; BLK; SOCK] calls with
    | (calls, Some _) => inl (Broke calls TBROK)
    | (calls, None) => inr calls
    end.

Definition run (workdir : string) (e : env) (i : Z) : res outcome :=
  let calls := [Chdir workdir] in
  match (if i =? 0 then prepare e calls else inr calls) with
  | inl broken => Ok broken
  | inr calls =>
    let exp_eno := ENODATA in
    tc ← index tcases i;
    let '(ret, err) := getxattr e tc in
    let calls := calls ++ [Getxattr tc XATTR_TEST_KEY] in
    if (ret =? -1) && (err =? exp_eno)
    then Ok (Reported calls
               (Getxattr01.Result TPASS true "expected return value"))
    else Ok (Reported calls
               (Getxattr01.Result TFAIL true "unexpected return value"))
  end.

(** The characters of a C string, up to its terminator. *)
Definition chars (s : list ascii) : list ascii :=
  take (Z.to_nat (Getxattr01.strlen s)) s.

(** [setup]: the size asked of the allocator and the array [sprintf]
    writes, for the directory [cwd] that [getcwd] returned. *)
Definition setup (cwd : list ascii) : Z * list ascii :=
  (Getxattr01.strlen cwd + Getxattr01.strlen (Getxattr01.literal MNTPOINT) + 2,
   chars cwd ++ ["/"%char] ++ chars (Getxattr01.literal MNTPOINT) ++
   [Ascii.zero]).

End Getxattr02.

(** * Machine arithmetic *)

Lemma wrap_u64_range z : 0 <= wrap_u64 z < 2 ^ 64.
Proof. unfold wrap_u64. apply Z.mod_pos_bound. lia. Qed.

Lemma wrap_u64_small z : 0 <= z < 2 ^ 64 → wrap_u64 z = z.
Proof. intros H. unfold wrap_u64. by apply Z.mod_small. Qed.

Lemma wrap_s64_small z : in_long z → wrap_s64 z = z.
Proof.
  unfold in_long, wrap_s64. intros H.
  rewrite Z.mod_small; lia.
Qed.

Lemma sub_long_exact a b : in_long (a - b) → sub_long a b = a - b.
Proof. apply wrap_s64_small. Qed.

(** Without overflow a candidate is a start offset that exceeds the
    previous task's by more than [max_err]. *)
Lemma candidate_exact st l i :
  in_long (start_at st i l - start_at st (i - 1) l) →
  candidate st l i ↔
  start_at st (i - 1) l < start_at st i l ∧
  max_err st < start_at st i l - start_at st (i - 1) l.
Proof. intros H. unfold candidate. by rewrite sub_long_exact. Qed.

(** * Priorities *)

Lemma CLAMP_mono x x' lower upper :
  x <= x' → CLAMP x lower upper <= CLAMP x' lower upper.
Proof. unfold CLAMP, MIN, MAX. lia. Qed.

Lemma CLAMP_inside x lower upper :
  lower <= x <= upper → CLAMP x lower upper = x.
Proof. unfold CLAMP, MIN, MAX. lia. Qed.


Lemma coordinator_not_below_workers st i :
  i < nr_tasks st → worker_prio st i <= coordinator_prio st.
Proof.
  unfold worker_prio, coordinator_prio, CLAMP_PRIO, CLAMP, MIN, MAX. lia.
Qed.

(** C7, as stated, fails: with the default start priority and the range
    1..98 that [run_test] computes from SCHED_FIFO's 1..99, tasks 96 and 97
    of a hundred are both created with priority 98. *)
Lemma worker_prio_saturates :
  let st := run_test_init 1 99 (initial_state 100) in
  0 <= 96 < 97 ∧ 97 < nr_tasks st ∧
  ¬ (worker_prio st 96 < worker_prio st 97).
Proof. vm_compute. intuition discriminate. Qed.

(** C7, amended: the priority handed to [create_fifo_thread] never
    decreases with the task id, and it increases strictly between two tasks
    whose unclamped priorities [prio_start + id] both lie within
    [prio_min .. prio_max]. *)
Theorem worker_prio_monotone st i j :
  i < j →
  worker_prio st i <= worker_prio st j ∧
  (prio_min st <= prio_start st + i → prio_start st + j <= prio_max st →
   worker_prio st i < worker_prio st j).
Proof.
  intros Hij. unfold worker_prio, CLAMP_PRIO. split.
  - apply CLAMP_mono. lia.
  - intros Hlo Hhi. rewrite !CLAMP_inside; lia.
Qed.

Lemma worker_prio_monotone_witness :
  let st := run_test_init 1 99 (initial_state 4) in
  worker_prio st 0 <= worker_prio st 3 ∧ worker_prio st 0 < worker_prio st 3.
Proof.
  intros st.
  destruct (worker_prio_monotone st 0 3 ltac:(lia)) as [Hle Hlt].
  split; [exact Hle|].
  apply Hlt; vm_compute; discriminate.
Defined.

(** C6 at the failing input [-a 0 -l 1] with one task: the worker is
    created with priority 1 and the coordinator asks for priority 1 as
    well, which is not above the worker's. *)
Theorem coordinator_prio_not_above :
  let cfg := (parse_args "l" 1 (parse_args "a" 0 (initial_state 1)).2).2 in
  ∃ r, run_test 1 99 [calm_run [0] 1000000 0] [(0, pass_clock 200000000)] cfg
       = Ok r ∧
       prio_min (final r) = 1 ∧ prio_max (final r) = 98 ∧
       worker_prios r = [1] ∧ main_prio r = 1.
Proof. eexists. vm_compute. repeat split; reflexivity. Qed.

(** * check_times *)

Lemma index_no_uninit {A} (a : list A) i : index a i ≠ Err UninitRead.
Proof.
  unfold index. destruct (i <? 0); [discriminate|].
  destruct (a !! Z.to_nat i); discriminate.
Qed.

Lemma sample_cases series i l :
  (∃ v, sample series i l = Ok v) ∨ sample series i l = Err OutOfBounds.
Proof.
  unfold sample, index.
  destruct (i <? 0); [by right|].
  destruct (series !! Z.to_nat i) as [c|]; simpl; [|by right].
  destruct (l <? 0); [by right|].
  destruct (records c !! Z.to_nat l) as [r|]; simpl; [|by right].
  left. by eexists.
Qed.

Lemma start_at_eq st i l a : sample (intervals st) i l = Ok a → start_at st i l = a.
Proof. unfold start_at. by intros ->. Qed.
Lemma length_at_eq st i l a :
  sample (intervals_length st) i l = Ok a → length_at st i l = a.
Proof. unfold length_at. by intros ->. Qed.
Lemma loops_at_eq st i l a :
  sample (intervals_loops st) i l = Ok a → loops_at st i l = a.
Proof. unfold loops_at. by intros ->. Qed.

(** One iteration of the loop on a complete run: the comparison is skipped
    for task 0, and for a later task the locals hold the previous task's
    samples. *)
Lemma check_times_step st l n i loc :
  has_sample (intervals st) i l →
  has_sample (intervals_length st) i l →
  has_sample (intervals_loops st) i l →
  i = 0 ∨ loc = locals_of st l (i - 1) →
  ∃ v : bool,
    (v = true ↔ i ≠ 0 ∧ violation_at st l i) ∧
    check_times_loop (S n) i loc st l =
      if v then Ok (1, set_check (-1) st)
      else check_times_loop n (i + 1) (locals_of st l i) st l.
Proof.
  intros [a Ha] [b Hb] [c Hc] Hloc.
  pose proof (start_at_eq _ _ _ _ Ha) as Ea.
  pose proof (length_at_eq _ _ _ _ Hb) as Eb.
  pose proof (loops_at_eq _ _ _ _ Hc) as Ec.
  unfold locals_of at 1. rewrite Ea, Eb, Ec.
  cbn [check_times_loop]. rewrite Ha, Hb, Hc.
  destruct (Z.eqb_spec i 0) as [-> | Hi].
  { exists false. split; [|reflexivity]. split; [discriminate|]. by intros [? _]. }
  destruct Hloc as [? | ->]; [done|].
  unfold violation_at, candidate, fewer_loops, starts_after_end, ends_later.
  rewrite Ea, Eb, Ec. simpl.
  destruct (Z.ltb_spec (start_at st (i - 1) l) a) as [H1|H1]; simpl;
    [|exists false; split; [split; [discriminate|lia]|reflexivity]].
  destruct (Z.ltb_spec (max_err st) (sub_long a (start_at st (i - 1) l)))
    as [H2|H2]; simpl;
    [|exists false; split; [split; [discriminate|lia]|reflexivity]].
  destruct (Z.ltb_spec c (loops_at st (i - 1) l)) as [H3|H3]; simpl;
    [exists true; split; [split; [intros _; lia|done]|reflexivity]|].
  destruct (Z.ltb_spec (length_at st (i - 1) l) a) as [H4|H4]; simpl;
    [exists true; split; [split; [intros _; lia|done]|reflexivity]|].
  destruct (Z.ltb_spec (length_at st (i - 1) l) b) as [H5|H5]; simpl;
    [|exists false; split; [split; [discriminate|lia]|reflexivity]].
  destruct (Z.ltb_spec (max_err st) (sub_long b (length_at st (i - 1) l)))
    as [H6|H6]; simpl.
  - exists true. split; [split; [intros _; lia|done]|reflexivity].
  - exists false. split; [split; [discriminate|lia]|reflexivity].
Qed.

Lemma check_times_loop_run st l :
  run_recorded st l →
  ∀ n i loc,
    0 <= i → i + Z.of_nat n = nr_tasks st →
    i = 0 ∨ loc = locals_of st l (i - 1) →
    ((∃ j, i <= j < nr_tasks st ∧ 0 < j ∧ violation_at st l j) ∧
     check_times_loop n i loc st l = Ok (1, set_check (-1) st)) ∨
    ((¬ ∃ j, i <= j < nr_tasks st ∧ 0 < j ∧ violation_at st l j) ∧
     check_times_loop n i loc st l = Ok (0, st)).
Proof.
  intros Hrec. induction n as [|n IH]; intros i loc Hi Hn Hloc.
  - right. split; [|reflexivity]. intros (j & ? & _). lia.
  - destruct (Hrec i) as (Sa & Sb & Sc); [lia|].
    destruct (check_times_step st l n i loc Sa Sb Sc Hloc) as (v & Hv & ->).
    destruct v.
    + left. split; [|reflexivity].
      destruct Hv as [Hv _]. destruct (Hv eq_refl) as [Hne Hviol].
      exists i. split; [lia|]. split; [lia|done].
    + destruct (IH (i + 1) (locals_of st l i)) as [[Hex ->] | [Hno ->]];
        [lia|lia|right; f_equal; lia|..].
      * left. split; [|reflexivity].
        destruct Hex as (j & ? & ? & ?). exists j. split; [lia|]. split; [lia|done].
      * right. split; [|reflexivity].
        intros (j & Hj & Hpos & Hviol).
        destruct (Z.eq_dec j i) as [-> | Hne].
        -- destruct Hv as [_ Hv]. discriminate Hv. split; [lia|done].
        -- apply Hno. exists j. split; [lia|]. split; [lia|done].
Qed.

(** What [check_times] returns on a complete run. *)
Lemma check_times_run st l :
  run_recorded st l →
  (violation st l ∧ check_times st l = Ok (1, set_check (-1) st)) ∨
  (¬ violation st l ∧ check_times st l = Ok (0, st)).
Proof.
  intros Hrec. unfold check_times, violation.
  destruct (Z_lt_le_dec (nr_tasks st) 0) as [Hneg|Hpos].
  - right. rewrite Z2Nat.nonpos by lia. split; [|reflexivity].
    intros (i & ? & _). lia.
  - destruct (check_times_loop_run st l Hrec (Z.to_nat (nr_tasks st)) 0
                {| last := None; last_loops := None; last_length := None |})
      as [[Hex ->] | [Hno ->]]; [lia|lia|by left|..].
    + left. split; [|reflexivity].
      destruct Hex as (j & ? & ? & ?). exists j. split; [lia|done].
    + right. split; [|reflexivity].
      intros (j & ? & ?). apply Hno. exists j. split; [lia|]. split; [lia|done].
Qed.

Lemma preempted_recorded : run_recorded preempted_state 0.
Proof.
  intros i Hi. change (nr_tasks preempted_state) with 2 in Hi.
  assert (i = 0 ∨ i = 1) as [-> | ->] by lia;
    (repeat split; eexists; vm_compute; reflexivity).
Defined.

(** C1, as stated, fails in both directions.  In [late_start_state] task 1
    starts more than [max_err] after task 0 and none of the three listed
    conditions holds, yet the run is not flagged and [check] keeps its
    value; in [preempted_state] task 1 moreover completed fewer loops than
    task 0, and that candidate is not ignored but flagged. *)
Lemma check_times_filter_inverted :
  (let st := late_start_state in
   start_at st 1 0 - start_at st 0 0 > max_err st ∧
   ¬ (loops_at st 1 0 < loops_at st 0 0 ∨
      start_at st 1 0 > length_at st 0 0 ∨
      Z.abs (length_at st 1 0 - length_at st 0 0) > max_err st ∨
      ∃ st', check_times st 0 = Ok (1, st'))) ∧
  (let st := preempted_state in
   start_at st 1 0 - start_at st 0 0 > max_err st ∧
   loops_at st 1 0 < loops_at st 0 0 ∧
   check_times st 0 = Ok (1, set_check (-1) st)).
Proof.
  split.
  - split; [vm_compute; reflexivity|].
    intros [H | [H | [H | [st' H]]]]; vm_compute in H; discriminate H.
  - repeat split; vm_compute; reflexivity.
Qed.

(** C1, amended: on a complete run [check_times] flags the run, setting
    [check] to -1 and returning 1, exactly when for some task i > 0 the
    start offset is greater than task i-1's and exceeds it by more than
    [max_err] (differences in 64-bit signed arithmetic) and at least one of
    these holds: task i completed fewer loops than task i-1; task i's start
    offset is greater than the value of task i-1 in the second series; task
    i's value in the second series is greater than task i-1's and exceeds
    it by more than [max_err].  A candidate for which none of the three
    holds is ignored: if no task is flagged, [check_times] returns 0 and
    changes nothing. *)
Theorem check_times_confirms st l :
  run_recorded st l →
  ∃ r st',
    check_times st l = Ok (r, st') ∧
    (r = 1 ∧ st' = set_check (-1) st ∨ r = 0 ∧ st' = st) ∧
    (r = 1 ↔
     ∃ i, 0 < i < nr_tasks st ∧ candidate st l i ∧
          (fewer_loops st l i ∨ starts_after_end st l i ∨ ends_later st l i)).
Proof.
  intros Hrec.
  destruct (check_times_run st l Hrec) as [[Hv ->] | [Hv ->]].
  - exists 1, (set_check (-1) st). split; [reflexivity|]. split; [by left|].
    split; [intros _; exact Hv|done].
  - exists 0, st. split; [reflexivity|]. split; [by right|].
    split; [discriminate|]. intros H. by destruct Hv.
Qed.

Lemma check_times_confirms_witness :
  ∃ r st',
    check_times preempted_state 0 = Ok (r, st') ∧
    (r = 1 ∧ st' = set_check (-1) preempted_state ∨
     r = 0 ∧ st' = preempted_state) ∧
    (r = 1 ↔
     ∃ i, 0 < i < nr_tasks preempted_state ∧ candidate preempted_state 0 i ∧
          (fewer_loops preempted_state 0 i ∨
           starts_after_end preempted_state 0 i ∨
           ends_later preempted_state 0 i)).
Proof. apply (check_times_confirms preempted_state 0), preempted_recorded. Defined.

(** The locals are assigned before they are read: the comparison is
    guarded by [i &&], and every iteration that goes on assigns all
    three. *)
Lemma check_times_loop_assigned st l n :
  ∀ i loc,
    0 <= i →
    i = 0 ∨ (is_Some (last loc) ∧ is_Some (last_loops loc) ∧
             is_Some (last_length loc)) →
    check_times_loop n i loc st l ≠ Err UninitRead.
Proof.
  induction n as [|n IH]; intros i loc Hi Hloc; [discriminate|].
  cbn [check_times_loop].
  assert (
    (s' ← sample (intervals st) i l;
     lo' ← sample (intervals_loops st) i l;
     len ← sample (intervals_length st) i l;
     check_times_loop n (i + 1)
       {| last := Some s'; last_loops := Some lo'; last_length := Some len |}
       st l) ≠ Err UninitRead) as Hcont.
  { destruct (sample_cases (intervals st) i l) as [[? ->] | ->];
      [|discriminate].
    destruct (sample_cases (intervals_loops st) i l) as [[? ->] | ->];
      [|discriminate].
    destruct (sample_cases (intervals_length st) i l) as [[? ->] | ->];
      [|discriminate].
    simpl. apply IH; [lia|]. right. eauto. }
  destruct (Z.eqb_spec i 0) as [-> | Hne]; [exact Hcont|].
  destruct Hloc as [? | ([la Hla] & [lo Hlo] & [le Hle])]; [done|].
  rewrite Hla, Hlo, Hle. simpl.
  destruct (sample_cases (intervals st) i l) as [[s Hs] | Hs];
    rewrite Hs in *; [|discriminate].
  simpl. destruct (la <? s); simpl; [|exact Hcont].
  destruct (max_err st <? sub_long s la); simpl; [|exact Hcont].
  destruct (sample_cases (intervals_loops st) i l) as [[c Hc] | Hc];
    rewrite Hc in *; [|discriminate].
  simpl. destruct (c <? lo); simpl; [discriminate|].
  destruct (le <? s); simpl; [discriminate|].
  destruct (sample_cases (intervals_length st) i l) as [[b Hb] | Hb];
    rewrite Hb in *; [|discriminate].
  simpl. destruct (le <? b); simpl; [|exact Hcont].
  destruct (max_err st <? sub_long b le); simpl; [discriminate|exact Hcont].
Qed.

Lemma check_times_assigned st l : check_times st l ≠ Err UninitRead.
Proof. apply check_times_loop_assigned; [lia|by left]. Qed.

(** What the locals hold on entry has no influence on the result. *)
Lemma check_times_loop_entry st l n loc loc' :
  check_times_loop n 0 loc st l = check_times_loop n 0 loc' st l.
Proof. destruct n; reflexivity. Qed.

(** C8, as stated, fails: no execution of [check_times] reads a local that
    was not assigned earlier in the same call. *)
Lemma check_times_never_reads_leftover :
  ¬ ∃ st l, check_times st l = Err UninitRead.
Proof. intros (st & l & H). by apply (check_times_assigned st l). Qed.

(** C8, amended: [check_times] reads [last], [last_loops] and [last_length]
    only after assigning them in the same call; whatever the three locals
    hold on entry, the result is the same, and it is never the fault of an
    unassigned read. *)
Theorem check_times_locals_assigned st l loc :
  check_times_loop (Z.to_nat (nr_tasks st)) 0 loc st l = check_times st l ∧
  check_times_loop (Z.to_nat (nr_tasks st)) 0 loc st l ≠ Err UninitRead.
Proof.
  split; [apply check_times_loop_entry|].
  apply check_times_loop_assigned; [lia|by left].
Qed.

(** * busy_loop *)

Lemma wrap_u64_succ a b : wrap_u64 (wrap_u64 a + b) = wrap_u64 (a + b).
Proof. unfold wrap_u64. apply Z.add_mod_idemp_l. lia. Qed.

(** When the loop returns, it has consumed the readings up to the first
    one that is RUN_INTERVAL or more after the start, and counted them. *)
Lemma busy_loop_from_returns clk :
  ∀ l start_time l' rest,
    busy_loop_from l start_time clk = Ok (l', rest) →
    ∃ pre t,
      clk = pre ++ t :: rest ∧
      Forall (λ u, sub_u64 (wrap_u64 u) start_time < RUN_INTERVAL) pre ∧
      RUN_INTERVAL <= sub_u64 (wrap_u64 t) start_time ∧
      l' = wrap_u64 (l + Z.of_nat (S (length pre))).
Proof.
  induction clk as [|u clk IH]; intros l start_time l' rest H; [discriminate|].
  cbn [busy_loop_from] in H.
  destruct (Z.ltb_spec (sub_u64 (wrap_u64 u) start_time) RUN_INTERVAL) as [Hu|Hu].
  - destruct (IH _ _ _ _ H) as (pre & t & -> & Hpre & Ht & ->).
    exists (u :: pre), t. split; [reflexivity|]. split; [by constructor|].
    split; [exact Ht|]. rewrite wrap_u64_succ. f_equal. simpl length. lia.
  - injection H as <- <-. exists [], u. split; [reflexivity|].
    split; [constructor|]. split; [exact Hu|]. f_equal.
Qed.

(** The loop returns as soon as the clock has a reading that far from the
    start; the readings after that one are left. *)
Lemma busy_loop_from_total pre :
  ∀ l start_time t rest,
    RUN_INTERVAL <= sub_u64 (wrap_u64 t) start_time →
    ∃ l' q, busy_loop_from l start_time (pre ++ t :: rest) = Ok (l', q ++ rest).
Proof.
  induction pre as [|u pre IH]; intros l start_time t rest Ht.
  - exists (wrap_u64 (l + 1)), []. cbn [app busy_loop_from].
    destruct (Z.ltb_spec (sub_u64 (wrap_u64 t) start_time) RUN_INTERVAL);
      [lia|reflexivity].
  - cbn [app busy_loop_from].
    destruct (Z.ltb_spec (sub_u64 (wrap_u64 u) start_time) RUN_INTERVAL).
    + apply IH, Ht.
    + exists (wrap_u64 (l + 1)), (pre ++ [t]).
      by rewrite <- app_assoc.
Qed.

Lemma busy_loop_returns start_time clk l rest :
  busy_loop start_time clk = Ok (l, rest) →
  ∃ pre t,
    clk = pre ++ t :: rest ∧
    Forall (λ u, sub_u64 (wrap_u64 u) start_time < RUN_INTERVAL) pre ∧
    RUN_INTERVAL <= sub_u64 (wrap_u64 t) start_time ∧
    l = wrap_u64 (Z.of_nat (S (length pre))).
Proof. apply busy_loop_from_returns. Qed.

(** Short of 2^64 iterations the returned count is positive. *)
Lemma busy_loop_count_positive start_time clk l rest :
  Z.of_nat (length clk) < 2 ^ 64 →
  busy_loop start_time clk = Ok (l, rest) → 0 < l.
Proof.
  intros Hlen H.
  destruct (busy_loop_returns _ _ _ _ H) as (pre & t & -> & _ & _ & ->).
  rewrite length_app in Hlen. simpl in Hlen.
  rewrite wrap_u64_small; lia.
Qed.

(** C2 at the failing input [-r 30000000]: [run_interval] holds the value
    given on the command line, and [busy_loop], started at 0, returns at the
    reading 20000000, which is less than [run_interval] after the start. *)
Theorem busy_loop_ignores_run_interval :
  let st := (parse_args "r" 30000000 (initial_state 2)).2 in
  run_interval st = 30000000 ∧
  busy_loop 0 [10000000; 20000000; 30000000] = Ok (2, [30000000]) ∧
  sub_u64 20000000 0 < run_interval st.
Proof. vm_compute. repeat split; reflexivity. Qed.

(** * record_time and start_task *)

Lemma append_at_ok series id c r :
  index series id = Ok c →
  append_at series id r =
    Ok (<[Z.to_nat id := stats_container_append c r]> series).
Proof. unfold append_at. by intros ->. Qed.

Lemma append_room c r :
  Z.of_nat (length (records c)) < size c →
  stats_container_append c r = {| size := size c; records := records c ++ [r] |}.
Proof.
  intros H. unfold stats_container_append.
  destruct (Z.ltb_spec (Z.of_nat (length (records c))) (size c)); [done|lia].
Qed.

(** [record_time] while runs are still accepted. *)
Lemma record_time_open id time l t clk st c1 c2 c3 :
  loop st < nr_runs st →
  index (intervals st) id = Ok c1 →
  index (intervals_length st) id = Ok c2 →
  index (intervals_loops st) id = Ok c3 →
  record_time id time l (t :: clk) st =
    Ok (clk,
        set_series
          (<[Z.to_nat id := stats_container_append c1
               {| x := loop st; y := wrap_s64 (sub_u64 time (now st)) |}]>
             (intervals st))
          (<[Z.to_nat id := stats_container_append c2
               {| x := loop st;
                  y := wrap_s64 (sub_u64 (wrap_u64 t / NS_PER_US) (now st)) |}]>
             (intervals_length st))
          (<[Z.to_nat id := stats_container_append c3
               {| x := loop st; y := wrap_s64 l |}]>
             (intervals_loops st))
          st).
Proof.
  intros Hopen H1 H2 H3. unfold record_time.
  destruct (Z.leb_spec (nr_runs st) (loop st)); [lia|].
  simpl. by rewrite (append_at_ok _ _ _ _ H1), (append_at_ok _ _ _ _ H2),
    (append_at_ok _ _ _ _ H3).
Qed.

(** [record_time] once no further run is accepted. *)
Lemma record_time_closed id time l clk st :
  nr_runs st <= loop st → record_time id time l clk st = Ok (clk, st).
Proof.
  intros H. unfold record_time.
  destruct (Z.leb_spec (nr_runs st) (loop st)); [done|lia].
Qed.

(** C5, as stated, fails: with the run epoch at 100 us, a task that starts
    at 150 us and whose busy interval lasts exactly 20000 us gets 50 in the
    first series and 20050 in the second, which is the offset of the end of
    the interval from the epoch, not its duration. *)
Lemma second_series_is_not_the_span :
  let st := set_now 100
              (set_loop 0
                 (run_test_init 1 99 (parse_args "l" 1 (initial_state 1)).2)) in
  let clk := [150000; 20150000; 20150000] in
  ∃ tr st',
    busy_loop 150000 [20150000; 20150000] = Ok (1, [20150000]) ∧
    (20150000 - 150000) / NS_PER_US = 20000 ∧
    start_task_iter 0 clk st = Ok (tr, [], st') ∧
    start_at st' 0 0 = 50 ∧ length_at st' 0 0 = 20050 ∧
    length_at st' 0 0 ≠ (20150000 - 150000) / NS_PER_US.
Proof.
  do 2 eexists. vm_compute. repeat split; try reflexivity. discriminate.
Qed.

(** C5, amended: in a run that is still accepted, one pass of a task
    appends exactly one sample to each of its three series, all tagged with
    the run index: the start time in microseconds relative to the run epoch;
    the time at which [record_time] is entered after the busy interval, in
    microseconds relative to the run epoch (the end offset, that is start
    offset plus span); and the loop count [busy_loop] returned. *)
Theorem start_task_records st id t0 clk l t1 clk' c1 c2 c3 :
  loop st < nr_runs st →
  index (intervals st) id = Ok c1 →
  index (intervals_length st) id = Ok c2 →
  index (intervals_loops st) id = Ok c3 →
  Z.of_nat (length (records c1)) < size c1 →
  Z.of_nat (length (records c2)) < size c2 →
  Z.of_nat (length (records c3)) < size c3 →
  busy_loop (wrap_u64 t0) clk = Ok (l, t1 :: clk') →
  start_task_iter id (t0 :: clk) st =
    Ok ([Wait id start_barrier; Wait id end_barrier], clk',
        set_series
          (<[Z.to_nat id :=
               {| size := size c1;
                  records := records c1 ++
                    [ {| x := loop st;
                         y := wrap_s64 (sub_u64 (wrap_u64 t0 / NS_PER_US)
                                                (now st)) |} ] |}]>
             (intervals st))
          (<[Z.to_nat id :=
               {| size := size c2;
                  records := records c2 ++
                    [ {| x := loop st;
                         y := wrap_s64 (sub_u64 (wrap_u64 t1 / NS_PER_US)
                                                (now st)) |} ] |}]>
             (intervals_length st))
          (<[Z.to_nat id :=
               {| size := size c3;
                  records := records c3 ++
                    [ {| x := loop st; y := wrap_s64 l |} ] |}]>
             (intervals_loops st))
          st).
Proof.
  intros Hopen H1 H2 H3 R1 R2 R3 Hbusy.
  unfold start_task_iter. cbn [rt_gettime]. simpl. rewrite Hbusy. simpl.
  rewrite (record_time_open _ _ _ _ _ _ _ _ _ Hopen H1 H2 H3). simpl.
  by rewrite !append_room.
Qed.

Lemma start_task_records_witness :
  let st := set_now 100
              (set_loop 0
                 (run_test_init 1 99 (parse_args "l" 1 (initial_state 1)).2)) in
  ∃ st',
    start_task_iter 0 [150000; 20150000; 20150000] st =
      Ok ([Wait 0 start_barrier; Wait 0 end_barrier], [], st') ∧
    sample (intervals st') 0 0 = Ok 50 ∧
    sample (intervals_length st') 0 0 = Ok 20050 ∧
    sample (intervals_loops st') 0 0 = Ok 1.
Proof.
  intros st. eexists. split.
  - apply (start_task_records st 0 150000 [20150000; 20150000] 1 20150000 []
             (Container 1 []) (Container 1 []) (Container 1 []));
      vm_compute; reflexivity.
  - vm_compute. repeat split; reflexivity.
Defined.

(** * Series during a run *)

Lemma index_Ok {A} (a : list A) i v :
  index a i = Ok v ↔ 0 <= i ∧ a !! Z.to_nat i = Some v.
Proof.
  unfold index. destruct (Z.ltb_spec i 0).
  - split; [discriminate|lia].
  - destruct (a !! Z.to_nat i); split; try discriminate.
    + intros [= ->]. split; [lia|done].
    + by intros [_ [= ->]].
    + by intros [_ ?].
Qed.

Lemma index_in_range {A} (a : list A) i :
  0 <= i < Z.of_nat (length a) → ∃ v, index a i = Ok v.
Proof.
  intros Hi. destruct (lookup_lt_is_Some_2 a (Z.to_nat i)) as [v Hv]; [lia|].
  exists v. apply index_Ok. split; [lia|done].
Qed.

Lemma append_size c r : size (stats_container_append c r) = size c.
Proof. unfold stats_container_append. by destruct (_ <? _). Qed.

Lemma append_lookup_old c r (l : nat) :
  (l < length (records c))%nat →
  records (stats_container_append c r) !! l = records c !! l.
Proof.
  intros Hl. unfold stats_container_append.
  destruct (_ <? _); [|done]. simpl. by rewrite lookup_app_l.
Qed.

(** Appending to task [id] leaves the samples already on record where they
    are. *)
Lemma sample_insert_append series id c r i l :
  index series id = Ok c →
  0 <= l < Z.of_nat (length (records c)) →
  sample (<[Z.to_nat id := stats_container_append c r]> series) i l =
  sample series i l.
Proof.
  intros [Hid Hc]%index_Ok Hl. unfold sample, index.
  destruct (Z.ltb_spec i 0); [done|].
  destruct (decide (Z.to_nat i = Z.to_nat id)) as [-> | Hne].
  - rewrite list_lookup_insert_eq by (by eapply lookup_lt_Some).
    rewrite Hc. simpl.
    destruct (Z.ltb_spec l 0); [lia|].
    rewrite append_lookup_old by lia. done.
  - by rewrite list_lookup_insert_ne.
Qed.

Lemma held_insert k cap n D series id c r :
  held k cap n D series →
  index series id = Ok c →
  id ∉ D → k < cap →
  held k cap n (id :: D) (<[Z.to_nat id := stats_container_append c r]> series).
Proof.
  intros [Hlen Hall] [Hid Hc]%index_Ok HD Hk. split.
  - by rewrite length_insert.
  - intros j c' Hj.
    destruct (decide (j = Z.to_nat id)) as [-> | Hne].
    + rewrite list_lookup_insert_eq in Hj by (by eapply lookup_lt_Some).
      injection Hj as <-.
      destruct (Hall _ _ Hc) as [Hcap Hrec].
      rewrite Z2Nat.id in * by lia.
      rewrite decide_False in Hrec by done.
      rewrite decide_True by (by left).
      rewrite append_size. split; [done|].
      rewrite append_room by lia. simpl. rewrite length_app. simpl. lia.
    + rewrite list_lookup_insert_ne in Hj by done.
      destruct (Hall _ _ Hj) as [Hcap Hrec]. split; [done|].
      rewrite Hrec. f_equal.
      destruct (decide (Z.of_nat j ∈ D)) as [Hin | Hin].
      * rewrite decide_True; [done|by right].
      * rewrite decide_False; [done|].
        intros [Heq | ?]%elem_of_cons; [|done]. apply Hne. lia.
Qed.

Lemma held_ext k cap n D D' series :
  (∀ z, z ∈ D ↔ z ∈ D') → held k cap n D series → held k cap n D' series.
Proof.
  intros HD [Hlen Hall]. split; [done|]. intros j c Hj.
  destruct (Hall _ _ Hj) as [Hcap Hrec]. split; [done|]. rewrite Hrec.
  f_equal. destruct (decide (Z.of_nat j ∈ D)) as [Hin | Hin].
  - rewrite decide_True; [done|by apply HD].
  - rewrite decide_False; [done|]. intros ?. by apply Hin, HD.
Qed.

(** When every task has recorded, the run is complete. *)
Lemma held_round_done k cap n D series :
  (∀ j, (j < n)%nat → Z.of_nat j ∈ D) →
  held k cap n D series → held (k + 1) cap n [] series.
Proof.
  intros HD [Hlen Hall]. split; [done|]. intros j c Hj.
  destruct (Hall _ _ Hj) as [Hcap Hrec]. split; [done|]. rewrite Hrec.
  rewrite decide_True by (apply HD; rewrite <- Hlen; by eapply lookup_lt_Some).
  rewrite decide_False by apply not_elem_of_nil. lia.
Qed.

Lemma held_index k cap n D series id :
  held k cap n D series → 0 <= id < Z.of_nat n →
  ∃ c, index series id = Ok c.
Proof. intros [Hlen _] Hid. apply index_in_range. by rewrite Hlen. Qed.

(** With [k] samples everywhere, sample [l] of task [i] exists exactly
    when [i] is a task and [l] one of the [k] runs. *)
Lemma held_has_sample k cap n series i l :
  held k cap n [] series →
  has_sample series i l ↔ 0 <= i < Z.of_nat n ∧ 0 <= l < k.
Proof.
  intros [Hlen Hall]. unfold has_sample, sample. split.
  - intros [v Hv].
    destruct (index series i) as [c|] eqn:Hc; [|discriminate].
    apply index_Ok in Hc as [Hi Hc]. simpl in Hv.
    destruct (index (records c) l) as [r|] eqn:Hr; [|discriminate].
    apply index_Ok in Hr as [Hl Hr].
    apply lookup_lt_Some in Hr. destruct (Hall _ _ Hc) as [_ Hrec].
    apply lookup_lt_Some in Hc.
    rewrite decide_False in Hrec by apply not_elem_of_nil. lia.
  - intros [Hi Hl].
    destruct (index_in_range series i) as [c Hc]; [lia|].
    rewrite Hc. simpl.
    pose proof Hc as [_ Hc']%index_Ok. destruct (Hall _ _ Hc') as [_ Hrec].
    rewrite decide_False in Hrec by apply not_elem_of_nil.
    destruct (index_in_range (records c) l) as [r Hr]; [lia|].
    rewrite Hr. simpl. by eexists.
Qed.

Lemma held_all_hold k cap n series : held k cap n [] series → all_hold k series.
Proof.
  intros [_ Hall]. apply Forall_lookup. intros j c Hj.
  destruct (Hall _ _ Hj) as [_ Hrec].
  rewrite decide_False in Hrec by apply not_elem_of_nil. lia.
Qed.

(** * One pass of a worker *)

Lemma same_globals_refl st : same_globals st st.
Proof. by destruct st. Qed.

Lemma same_globals_fields st st' :
  same_globals st st' →
  nr_tasks st' = nr_tasks st ∧ nr_runs st' = nr_runs st ∧
  loop st' = loop st ∧ check st' = check st ∧ stop st' = stop st ∧
  max_err st' = max_err st.
Proof. intros ->. by repeat split. Qed.

Lemma same_globals_trans st1 st2 st3 :
  same_globals st1 st2 → same_globals st2 st3 → same_globals st1 st3.
Proof. unfold same_globals. intros H12 H23. by rewrite H23, H12 at 1. Qed.

Lemma same_globals_series a b c st : same_globals st (set_series a b c st).
Proof. reflexivity. Qed.

Lemma clock_ok_busy clk :
  clock_ok clk →
  ∃ t0 c l t c', clk = t0 :: c ∧ busy_loop (wrap_u64 t0) c = Ok (l, t :: c').
Proof.
  intros (t0 & pre & t1 & t2 & rest & -> & Ht).
  destruct (busy_loop_from_total pre 0 (wrap_u64 t0) t1 (t2 :: rest) Ht)
    as (l & q & Hq).
  exists t0, (pre ++ t1 :: t2 :: rest), l.
  destruct q as [|t q]; [exists t2, rest|exists t, (q ++ t2 :: rest)];
    by split.
Qed.

(** The pass of a worker once no further run is accepted: nothing is
    recorded, not even a clock reading is taken by [record_time], and both
    barriers are reached. *)
Lemma start_task_iter_closed id clk st t0 c l clk' :
  nr_runs st <= loop st →
  rt_gettime clk = Ok (t0, c) →
  busy_loop t0 c = Ok (l, clk') →
  start_task_iter id clk st =
    Ok ([Wait id start_barrier; Wait id end_barrier], clk', st).
Proof.
  intros Hclosed Ht Hb. unfold start_task_iter. rewrite Ht. simpl.
  rewrite Hb. simpl. by rewrite record_time_closed.
Qed.

Lemma start_task_iter_inv id clk st tr clk' st' :
  start_task_iter id clk st = Ok (tr, clk', st') →
  (nr_runs st <= loop st ∧ st' = st) ∨
  (loop st < nr_runs st ∧
   ∃ c1 c2 c3 r1 r2 r3,
     index (intervals st) id = Ok c1 ∧
     index (intervals_length st) id = Ok c2 ∧
     index (intervals_loops st) id = Ok c3 ∧
     st' = set_series
             (<[Z.to_nat id := stats_container_append c1 r1]> (intervals st))
             (<[Z.to_nat id := stats_container_append c2 r2]>
                (intervals_length st))
             (<[Z.to_nat id := stats_container_append c3 r3]>
                (intervals_loops st))
             st).
Proof.
  unfold start_task_iter. intros H.
  destruct clk as [|t0 clk]; [discriminate|]. simpl in H.
  destruct (busy_loop (wrap_u64 t0) clk) as [[l clk1]|]; [|discriminate].
  simpl in H. unfold record_time in H.
  destruct (Z.leb_spec (nr_runs st) (loop st)) as [Hc|Ho].
  - left. simpl in H. injection H as _ _ <-. by split.
  - right. split; [done|].
    destruct clk1 as [|t1 clk2]; [discriminate|]. simpl in H.
    unfold append_at in H.
    destruct (index (intervals st) id) as [c1|]; [|discriminate].
    destruct (index (intervals_length st) id) as [c2|]; [|discriminate].
    destruct (index (intervals_loops st) id) as [c3|]; [|discriminate].
    simpl in H. injection H as _ _ <-.
    by eexists c1, c2, c3, _, _, _.
Qed.

Lemma start_task_iter_same_globals id clk st tr clk' st' :
  start_task_iter id clk st = Ok (tr, clk', st') → same_globals st st'.
Proof.
  intros [[_ ->] | [_ (c1 & c2 & c3 & r1 & r2 & r3 & _ & _ & _ & ->)]]
    %start_task_iter_inv.
  - apply same_globals_refl.
  - apply same_globals_series.
Qed.

Lemma held_length_lt k cap n D series id c l :
  held k cap n D series → index series id = Ok c → 0 <= l < k →
  0 <= l < Z.of_nat (length (records c)).
Proof.
  intros [_ Hall] [_ Hc]%index_Ok Hl. destruct (Hall _ _ Hc) as [_ Hrec].
  destruct (decide _); lia.
Qed.

(** The pass of a worker during an accepted run: its three series grow by
    one sample, nothing else changes. *)
Lemma start_task_iter_open id clk st tr clk' st' D :
  start_task_iter id clk st = Ok (tr, clk', st') →
  loop st < nr_runs st → round_inv st D → id ∉ D →
  round_inv st' (id :: D) ∧ same_globals st st' ∧
  same_samples_below (loop st) st st'.
Proof.
  intros [[? _] | [_ (c1 & c2 & c3 & r1 & r2 & r3 & H1 & H2 & H3 & ->)]]
    %start_task_iter_inv Hopen (I1 & I2 & I3) HD; [lia|].
  split; [|split].
  - unfold round_inv. simpl. split; [|split]; by apply held_insert.
  - apply same_globals_series.
  - intros i l Hl. simpl.
    repeat split; (apply sample_insert_append; [done|]).
    + exact (held_length_lt _ _ _ _ _ _ _ _ I1 H1 Hl).
    + exact (held_length_lt _ _ _ _ _ _ _ _ I2 H2 Hl).
    + exact (held_length_lt _ _ _ _ _ _ _ _ I3 H3 Hl).
Qed.

Lemma start_task_iter_total id clk st D :
  clock_ok clk → round_inv st D → 0 <= id < nr_tasks st →
  ∃ tr clk' st', start_task_iter id clk st = Ok (tr, clk', st').
Proof.
  intros (t0 & c & l & t & c' & -> & Hb)%clock_ok_busy (I1 & I2 & I3) Hid.
  destruct (Z_lt_le_dec (loop st) (nr_runs st)) as [Hopen | Hclosed].
  - destruct (held_index _ _ _ _ _ id I1) as [c1 H1]; [lia|].
    destruct (held_index _ _ _ _ _ id I2) as [c2 H2]; [lia|].
    destruct (held_index _ _ _ _ _ id I3) as [c3 H3]; [lia|].
    unfold start_task_iter. cbn [rt_gettime]. simpl. rewrite Hb. simpl.
    rewrite (record_time_open _ _ _ _ _ _ _ _ _ Hopen H1 H2 H3). simpl.
    by eexists _, _, _.
  - eexists _, _, _. by eapply start_task_iter_closed.
Qed.

(** * One release of all workers *)

Lemma same_samples_below_trans k st1 st2 st3 :
  same_samples_below k st1 st2 → same_samples_below k st2 st3 →
  same_samples_below k st1 st3.
Proof.
  intros H12 H23 i l Hl.
  destruct (H12 i l Hl) as (E1 & E2 & E3).
  destruct (H23 i l Hl) as (F1 & F2 & F3).
  by rewrite F1, F2, F3.
Qed.

Lemma round_inv_ext st D D' :
  (∀ z, z ∈ D ↔ z ∈ D') → round_inv st D → round_inv st D'.
Proof. intros HD (I1 & I2 & I3). split; [|split]; by eapply held_ext. Qed.

Lemma run_workers_open sch :
  ∀ st D st',
    run_workers sch st = Ok st' →
    loop st < nr_runs st → round_inv st D →
    NoDup sch.*1 → (∀ id, id ∈ sch.*1 → id ∉ D) →
    round_inv st' (sch.*1 ++ D) ∧ same_globals st st' ∧
    same_samples_below (loop st) st st'.
Proof.
  induction sch as [|[id clk] sch IH]; intros st D st' H Hopen Hinv Hnd HD.
  - injection H as <-. split; [done|]. split; [apply same_globals_refl|].
    by intros i l _.
  - cbn [run_workers] in H.
    destruct (start_task_iter id clk st) as [[[tr clk'] st1]|] eqn:Hpass;
      [|discriminate].
    simpl in H. apply NoDup_cons in Hnd as [Hid Hnd].
    destruct (start_task_iter_open _ _ _ _ _ _ D Hpass Hopen Hinv)
      as (Hinv1 & Hg1 & Hs1); [apply HD; by left|].
    destruct (same_globals_fields _ _ Hg1) as (_ & Hr & Hl & _).
    destruct (IH st1 (id :: D) st' H) as (Hinv' & Hg' & Hs'); [lia|done|done|..].
    { intros id' Hin [-> | Hin']%elem_of_cons; [done|].
      apply (HD id'); [by right|done]. }
    split; [|split].
    + eapply round_inv_ext; [|exact Hinv']. intros z. simpl.
      rewrite !elem_of_app, !elem_of_cons, elem_of_app. tauto.
    + by eapply same_globals_trans.
    + eapply same_samples_below_trans; [exact Hs1|]. by rewrite <- Hl.
Qed.

Lemma run_workers_total sch :
  ∀ st D,
    loop st < nr_runs st → round_inv st D →
    NoDup sch.*1 → (∀ id, id ∈ sch.*1 → 0 <= id < nr_tasks st ∧ id ∉ D) →
    Forall clock_ok sch.*2 →
    ∃ st', run_workers sch st = Ok st'.
Proof.
  induction sch as [|[id clk] sch IH]; intros st D Hopen Hinv Hnd HD Hclk.
  - by eexists.
  - apply NoDup_cons in Hnd as [Hid Hnd].
    apply Forall_cons in Hclk as [Hc Hclk].
    destruct (HD id) as [Hrange HnD]; [by left|].
    destruct (start_task_iter_total id clk st D Hc Hinv Hrange)
      as (tr & clk' & st1 & Hpass).
    destruct (start_task_iter_open _ _ _ _ _ _ D Hpass Hopen Hinv HnD)
      as (Hinv1 & Hg1 & _).
    destruct (same_globals_fields _ _ Hg1) as (Ht & Hr & Hl & _).
    destruct (IH st1 (id :: D)) as [st' Hrest]; [lia|done|done|..|done|].
    { intros id' Hin. destruct (HD id') as [? ?]; [by right|].
      split; [lia|]. intros [-> | ?]%elem_of_cons; done. }
    exists st'. cbn [run_workers]. by rewrite Hpass.
Qed.

Lemma run_workers_closed sch :
  ∀ st, nr_runs st <= loop st → Forall clock_ok sch.*2 →
        run_workers sch st = Ok st.
Proof.
  induction sch as [|[id clk] sch IH]; intros st Hclosed Hclk; [done|].
  apply Forall_cons in Hclk as [Hc Hclk]. simpl in Hc.
  destruct (clock_ok_busy _ Hc) as (t0 & c & l & t & c' & -> & Hb).
  cbn [run_workers].
  rewrite (start_task_iter_closed id _ st (wrap_u64 t0) c l (t :: c'));
    [|done|done|done].
  simpl. by apply IH.
Qed.

Lemma run_workers_same_globals sch :
  ∀ st st', run_workers sch st = Ok st' → same_globals st st'.
Proof.
  induction sch as [|[id clk] sch IH]; intros st st' H.
  - injection H as <-. apply same_globals_refl.
  - cbn [run_workers] in H.
    destruct (start_task_iter id clk st) as [[[tr clk'] st1]|] eqn:Hpass;
      [|discriminate].
    simpl in H. eapply same_globals_trans; [|by apply IH].
    by eapply start_task_iter_same_globals.
Qed.

(** * One run of the coordinator *)

Lemma deliver_eq n st :
  deliver n st = match n with O => st | S _ => set_stop 0 st end.
Proof.
  revert st. induction n as [|n IH]; intros st; [done|].
  cbn [deliver]. rewrite IH. by destruct n.
Qed.

Lemma held_cap k cap cap' n D series :
  cap' <= cap → held k cap n D series → held k cap' n D series.
Proof.
  intros Hc [Hlen Hall]. split; [done|]. intros j c Hj.
  destruct (Hall _ _ Hj). split; [lia|done].
Qed.

Lemma violation_same st st' l :
  nr_tasks st' = nr_tasks st → max_err st' = max_err st →
  (∀ i, sample (intervals st') i l = sample (intervals st) i l ∧
        sample (intervals_length st') i l = sample (intervals_length st) i l ∧
        sample (intervals_loops st') i l = sample (intervals_loops st) i l) →
  violation st' l ↔ violation st l.
Proof.
  intros Ht Hm Hs.
  assert (∀ i, start_at st' i l = start_at st i l ∧
               length_at st' i l = length_at st i l ∧
               loops_at st' i l = loops_at st i l) as Hv.
  { intros i. destruct (Hs i) as (E1 & E2 & E3).
    unfold start_at, length_at, loops_at. by rewrite E1, E2, E3. }
  unfold violation, violation_at, candidate, fewer_loops, starts_after_end,
    ends_later.
  split; intros (i & Hi & H); exists i;
    destruct (Hv i) as (E1 & E2 & E3); destruct (Hv (i - 1)) as (F1 & F2 & F3).
  - rewrite <- Ht, <- Hm, <- E1, <- E2, <- E3, <- F1, <- F2, <- F3. done.
  - rewrite Ht, Hm, E1, E2, E3, F1, F2, F3. done.
Qed.

Lemma run_recorded_same st st' l :
  nr_tasks st' = nr_tasks st →
  (∀ i, sample (intervals st') i l = sample (intervals st) i l ∧
        sample (intervals_length st') i l = sample (intervals_length st) i l ∧
        sample (intervals_loops st') i l = sample (intervals_loops st) i l) →
  run_recorded st l → run_recorded st' l.
Proof.
  intros Ht Hs Hrec i Hi. destruct (Hs i) as (E1 & E2 & E3).
  unfold has_sample. rewrite E1, E2, E3. apply Hrec. lia.
Qed.

(** With [k] samples everywhere, the runs before [k] are complete. *)
Lemma held_run_recorded st k cap l :
  held k cap (Z.to_nat (nr_tasks st)) [] (intervals st) →
  held k cap (Z.to_nat (nr_tasks st)) [] (intervals_length st) →
  held k cap (Z.to_nat (nr_tasks st)) [] (intervals_loops st) →
  0 <= l < k → run_recorded st l.
Proof.
  intros I1 I2 I3 Hl i Hi.
  repeat split; (eapply held_has_sample; [eassumption|lia]).
Qed.

Lemma run_boundary_inv st brk st2 :
  run_boundary st = Ok (brk, st2) → run_recorded st (loop st) →
  (stop st ≠ 0 ∧ brk = true ∧ st2 = st) ∨
  (stop st = 0 ∧ check st = 0 ∧ brk = false ∧ st2 = st) ∨
  (stop st = 0 ∧ check st ≠ 0 ∧ violation st (loop st) ∧
   brk = true ∧ st2 = set_check (-1) st) ∨
  (stop st = 0 ∧ check st ≠ 0 ∧ ¬ violation st (loop st) ∧
   brk = false ∧ st2 = st).
Proof.
  unfold run_boundary. intros H Hrec.
  destruct (Z.eqb_spec (stop st) 0) as [Hs | Hs]; simpl in H.
  - destruct (Z.eqb_spec (check st) 0) as [Hc | Hc].
    + injection H as <- <-. right. by left.
    + right. right.
      destruct (check_times_run st (loop st) Hrec) as [[Hv E] | [Hv E]];
        rewrite E in H; simpl in H; injection H as <- <-; [by left|by right].
  - injection H as <- <-. by left.
Qed.

Lemma run_boundary_total st :
  run_recorded st (loop st) → ∃ brk st2, run_boundary st = Ok (brk, st2).
Proof.
  intros Hrec. unfold run_boundary.
  destruct (Z.eqb_spec (stop st) 0); simpl; [|by eexists _, _].
  destruct (Z.eqb_spec (check st) 0); [by eexists _, _|].
  destruct (check_times_run st (loop st) Hrec) as [[_ ->] | [_ ->]];
    by eexists _, _.
Qed.

Lemma run_body_unfold o st brk st' :
  run_body o st = Ok (brk, st') →
  ∃ sw st2,
    run_workers (sched o) (set_now (wrap_u64 (epoch o) / NS_PER_US) st) = Ok sw ∧
    run_boundary (deliver (sigints o) sw) = Ok (brk, st2) ∧
    st' = if brk then set_nr_runs (loop st2 + 1) (set_loop (loop st2 + 1) st2)
          else st2.
Proof.
  unfold run_body. intros H.
  destruct (run_workers _ _) as [sw|] eqn:Hw; [|discriminate]. simpl in H.
  destruct (run_boundary _) as [[b st2]|] eqn:Hb; [|discriminate]. simpl in H.
  exists sw, st2. destruct b; injection H as <- <-; by repeat split.
Qed.

(** The state after the workers of a run have all recorded. *)
Lemma round_recorded o st sw :
  run_workers (sched o) (set_now (wrap_u64 (epoch o) / NS_PER_US) st) = Ok sw →
  boundary_inv st → loop st < nr_runs st →
  (sched o).*1 ≡ₚ seqZ 0 (nr_tasks st) →
  same_globals (set_now (wrap_u64 (epoch o) / NS_PER_US) st) sw ∧
  same_samples_below (loop st) st sw ∧
  held (loop st + 1) (nr_runs st) (Z.to_nat (nr_tasks st)) [] (intervals sw) ∧
  held (loop st + 1) (nr_runs st) (Z.to_nat (nr_tasks st)) []
    (intervals_length sw) ∧
  held (loop st + 1) (nr_runs st) (Z.to_nat (nr_tasks st)) []
    (intervals_loops sw).
Proof.
  intros Hw [Hl Hinv] Hopen Hperm.
  destruct (run_workers_open _ _ [] _ Hw) as (Hinv' & Hg & Hs); [done|done|..].
  { rewrite Hperm. apply NoDup_seqZ. }
  { intros ? _. apply not_elem_of_nil. }
  split; [done|]. split; [done|].
  destruct (same_globals_fields _ _ Hg) as (Et & Er & El & _).
  simpl in Et, Er, El.
  destruct Hinv' as (I1 & I2 & I3). rewrite Et, Er, El in I1, I2, I3.
  assert (∀ j, (j < Z.to_nat (nr_tasks st))%nat →
               Z.of_nat j ∈ (sched o).*1 ++ []) as Hall.
  { intros j Hj. rewrite app_nil_r, Hperm. apply elem_of_seqZ. lia. }
  split; [|split].
  - exact (held_round_done _ _ _ _ _ Hall I1).
  - exact (held_round_done _ _ _ _ _ Hall I2).
  - exact (held_round_done _ _ _ _ _ Hall I3).
Qed.

(** What one pass through the body of the run loop does to the state. *)
Lemma run_body_spec o st brk st' :
  run_body o st = Ok (brk, st') →
  boundary_inv st → loop st < nr_runs st →
  (sched o).*1 ≡ₚ seqZ 0 (nr_tasks st) →
  nr_tasks st' = nr_tasks st ∧ max_err st' = max_err st ∧
  same_samples_below (loop st) st st' ∧
  (held (loop st + 1) (nr_runs st) (Z.to_nat (nr_tasks st)) [] (intervals st') ∧
   held (loop st + 1) (nr_runs st) (Z.to_nat (nr_tasks st)) []
     (intervals_length st') ∧
   held (loop st + 1) (nr_runs st) (Z.to_nat (nr_tasks st)) []
     (intervals_loops st')) ∧
  (if brk then loop st' = loop st + 1 ∧ nr_runs st' = loop st + 1
   else loop st' = loop st ∧ nr_runs st' = nr_runs st) ∧
  stop st' = match sigints o with O => stop st | S _ => 0 end ∧
  (stop st' ≠ 0 → brk = true ∧ check st' = check st) ∧
  (stop st' = 0 → check st = 0 → brk = false ∧ check st' = 0) ∧
  (stop st' = 0 → check st ≠ 0 →
   (brk = true ∧ violation st' (loop st) ∧ check st' = -1) ∨
   (brk = false ∧ ¬ violation st' (loop st) ∧ check st' = check st)).
Proof.
  intros (sw & st2 & Hw & Hb & ->)%run_body_unfold Hinv Hopen Hperm.
  destruct (round_recorded _ _ _ Hw Hinv Hopen Hperm)
    as (Hg & Hs & I1 & I2 & I3).
  destruct (same_globals_fields _ _ Hg) as (Et & Er & El & Ec & Ep & Em).
  simpl in Et, Er, El, Ec, Ep, Em.
  rewrite deliver_eq in Hb.
  assert (run_recorded (match sigints o with
                        | O => sw | S _ => set_stop 0 sw end)
            (loop (match sigints o with
                   | O => sw | S _ => set_stop 0 sw end))) as Hrec.
  { destruct Hinv as [? _].
    pose proof I1 as J1. pose proof I2 as J2. pose proof I3 as J3.
    rewrite <- Et in J1, J2, J3.
    destruct (sigints o); simpl; rewrite El;
      (eapply held_run_recorded; [exact J1|exact J2|exact J3|lia]). }
  apply run_boundary_inv in Hb; [|exact Hrec]. clear Hrec.
  destruct (sigints o) as [|n];
    destruct Hb as [(Hst & -> & ->) | [(Hst & Hck & -> & ->) |
                   [(Hst & Hck & Hv & -> & ->) | (Hst & Hck & Hv & -> & ->)]]];
    simpl in *; rewrite ?El in *;
    (split; [done|]); (split; [done|]); (split; [done|]);
    (split; [done|]); (split; [lia|]); (split; [lia|]);
    (split; [first [intros ?; split; [done|lia] | intros ?; lia]|]);
    (split; [first [intros ? ?; split; [done|lia] | intros ? ?; lia]|]);
    intros ? ?; try lia;
    first [ left; split; [done|]; split; [exact Hv|done]
          | right; split; [done|]; split; [exact Hv|lia] ].
Qed.

Lemma run_body_total o st :
  boundary_inv st → loop st < nr_runs st →
  round_ok (nr_tasks st) (sched o) →
  ∃ brk st', run_body o st = Ok (brk, st').
Proof.
  intros Hinv Hopen [Hperm Hclk].
  pose proof Hinv as [Hl Hr].
  destruct (run_workers_total (sched o)
              (set_now (wrap_u64 (epoch o) / NS_PER_US) st) [])
    as [sw Hw]; [done|done|..|done|].
  { rewrite Hperm. apply NoDup_seqZ. }
  { intros id Hid. rewrite Hperm in Hid. apply elem_of_seqZ in Hid.
    split; [simpl; lia|apply not_elem_of_nil]. }
  destruct (round_recorded _ _ _ Hw Hinv Hopen Hperm)
    as (Hg & _ & I1 & I2 & I3).
  destruct (same_globals_fields _ _ Hg) as (Et & _ & El & _).
  simpl in Et, El. rewrite <- Et in I1, I2, I3.
  destruct (run_boundary_total (deliver (sigints o) sw)) as (brk & st2 & Hb).
  { rewrite deliver_eq.
    destruct (sigints o); simpl; rewrite El;
      (eapply held_run_recorded; [exact I1|exact I2|exact I3|lia]). }
  unfold run_body. rewrite Hw. simpl. rewrite Hb. simpl.
  destruct brk; by eexists _, _.
Qed.

(** * The run boundaries *)

Lemma held_fresh cap n : held 0 cap n [] (replicate n (stats_container_init cap)).
Proof.
  split; [apply length_replicate|]. intros j c [-> _]%lookup_replicate.
  simpl. split; [lia|done].
Qed.

Lemma init_boundary smin smax cfg :
  0 <= nr_runs cfg → boundary_inv (set_loop 0 (run_test_init smin smax cfg)).
Proof.
  intros Hr. split; [simpl; lia|].
  unfold round_inv. simpl. split; [|split]; apply held_fresh.
Qed.

Lemma boundary_step o st st' :
  run_body o st = Ok (false, st') →
  boundary_inv st → loop st < nr_runs st →
  (sched o).*1 ≡ₚ seqZ 0 (nr_tasks st) →
  boundary_inv (set_loop (loop st' + 1) st').
Proof.
  intros Hb Hinv Hopen Hperm.
  destruct (run_body_spec _ _ _ _ Hb Hinv Hopen Hperm)
    as (Et & _ & _ & (I1 & I2 & I3) & [El Er] & _).
  destruct Hinv as [? _].
  split; [simpl; lia|]. unfold round_inv. simpl. by rewrite Et, El, Er.
Qed.

Lemma boundary_leave o st st' :
  run_body o st = Ok (true, st') →
  boundary_inv st → loop st < nr_runs st →
  (sched o).*1 ≡ₚ seqZ 0 (nr_tasks st) →
  boundary_inv st' ∧ loop st' = nr_runs st'.
Proof.
  intros Hb Hinv Hopen Hperm.
  destruct (run_body_spec _ _ _ _ Hb Hinv Hopen Hperm)
    as (Et & _ & _ & (I1 & I2 & I3) & [El Er] & _).
  destruct Hinv as [? _].
  split; [|lia]. split; [lia|]. unfold round_inv. rewrite Et, El, Er.
  split; [|split]; (eapply held_cap; [|eassumption]); lia.
Qed.

Lemma at_boundary_inv smin smax cfg st :
  0 <= nr_runs cfg → at_boundary smin smax cfg st → boundary_inv st.
Proof.
  intros Hr. induction 1 as [|st o st' _ IH Hopen Hperm Hb
                             |st o st' _ IH Hopen Hperm Hb].
  - by apply init_boundary.
  - by eapply boundary_step.
  - by eapply boundary_leave.
Qed.

(** The states the run loop passes through are run boundaries, and it
    ends with no further run accepted. *)
Lemma run_loop_boundary smin smax cfg obs :
  0 <= nr_runs cfg →
  ∀ st st',
    at_boundary smin smax cfg st →
    Forall (λ o, (sched o).*1 ≡ₚ seqZ 0 (nr_tasks st)) obs →
    run_loop obs st = Ok st' →
    at_boundary smin smax cfg st' ∧ nr_runs st' <= loop st'.
Proof.
  intros Hr. induction obs as [|o obs IH]; intros st st' Hat Hobs H;
    cbn [run_loop] in H;
    destruct (Z.ltb_spec (loop st) (nr_runs st)) as [Hopen | Hclosed];
    try discriminate; try (injection H as <-; by split).
  apply Forall_cons in Hobs as [Hperm Hobs].
  destruct (run_body o st) as [[brk st1]|] eqn:Hb; [|discriminate].
  simpl in H. pose proof (at_boundary_inv _ _ _ _ Hr Hat) as Hinv.
  destruct brk.
  - injection H as <-.
    destruct (boundary_leave _ _ _ Hb Hinv Hopen Hperm) as [_ E].
    split; [by eapply boundary_break|lia].
  - destruct (run_body_spec _ _ _ _ Hb Hinv Hopen Hperm) as (Et & _).
    apply (IH (set_loop (loop st1 + 1) st1)); [by eapply boundary_next| |done].
    simpl. by rewrite Et.
Qed.

(** At a run boundary the three series of every task hold [loop]
    samples, and a run index has its samples for all tasks or for none. *)
Lemma boundary_series st :
  boundary_inv st →
  recorded_runs st (loop st) ∧
  ∀ r, (0 <= r < loop st ∧ run_recorded st r) ∨
       ((r < 0 ∨ loop st <= r) ∧
        ∀ i, ¬ has_sample (intervals st) i r ∧
             ¬ has_sample (intervals_length st) i r ∧
             ¬ has_sample (intervals_loops st) i r).
Proof.
  intros [Hl (I1 & I2 & I3)]. split.
  - split; [|split]; by eapply held_all_hold.
  - intros r. destruct (decide (0 <= r < loop st)) as [Hr | Hr].
    + left. split; [done|]. by eapply held_run_recorded.
    + right. split; [lia|]. intros i.
      repeat split; intros Hs;
        (eapply held_has_sample in Hs; [|eassumption]); lia.
Qed.

(** C4: for a run count that is not negative, at every run boundary of
    [run_test] (before the first run, after every run, and after the
    truncation of [nr_runs] that leaves the loop) the three series of every
    task hold the same number of samples, [loop], which does not exceed
    [nr_runs]; a run index has its samples for all tasks or for none; the
    run loop ends at such a boundary with [loop >= nr_runs]; and the pass of
    a worker released in that situation leaves the state as it is and waits
    at the start barrier and at the end barrier. *)
Theorem series_in_step smin smax cfg st :
  0 <= nr_runs cfg →
  at_boundary smin smax cfg st →
  (0 <= loop st <= nr_runs st ∧
   recorded_runs st (loop st) ∧
   ∀ r, (0 <= r < loop st ∧ run_recorded st r) ∨
        ((r < 0 ∨ loop st <= r) ∧
         ∀ i, ¬ has_sample (intervals st) i r ∧
              ¬ has_sample (intervals_length st) i r ∧
              ¬ has_sample (intervals_loops st) i r)) ∧
  (∀ id clk t0 c l clk',
     nr_runs st <= loop st →
     rt_gettime clk = Ok (t0, c) → busy_loop t0 c = Ok (l, clk') →
     start_task_iter id clk st =
       Ok ([Wait id start_barrier; Wait id end_barrier], clk', st)) ∧
  (∀ obs st',
     Forall (λ o, (sched o).*1 ≡ₚ seqZ 0 (nr_tasks st)) obs →
     run_loop obs st = Ok st' →
     at_boundary smin smax cfg st' ∧ nr_runs st' <= loop st').
Proof.
  intros Hr Hat. pose proof (at_boundary_inv _ _ _ _ Hr Hat) as Hinv.
  split; [|split].
  - destruct (boundary_series st Hinv) as [Hrec Hall].
    destruct Hinv as [Hl _]. split; [exact Hl|]. split; [exact Hrec|exact Hall].
  - intros id clk t0 c l clk'. apply start_task_iter_closed.
  - intros obs st'. by apply run_loop_boundary.
Qed.

Lemma series_in_step_witness :
  let cfg := (parse_args "l" 3 (initial_state 2)).2 in
  ∃ st,
    at_boundary 1 99 cfg st ∧ loop st = 1 ∧ nr_runs st = 3 ∧
    recorded_runs st 1 ∧ run_recorded st 0.
Proof.
  intros cfg.
  assert (∃ st, at_boundary 1 99 cfg st ∧ loop st = 1 ∧ nr_runs st = 3)
    as (st & Hat & Hl & Hr).
  { eexists. split.
    - eapply (boundary_next 1 99 cfg _ (calm_run [0; 1] 1000000 0)).
      + apply boundary_first.
      + vm_compute. reflexivity.
      + vm_compute. reflexivity.
      + vm_compute. reflexivity.
    - vm_compute. split; reflexivity. }
  exists st. split; [exact Hat|]. split; [exact Hl|]. split; [exact Hr|].
  destruct (series_in_step 1 99 cfg st) as ((_ & Hrec & Hall) & _);
    [vm_compute; discriminate|exact Hat|].
  rewrite Hl in Hrec, Hall. split; [exact Hrec|].
  destruct (Hall 0) as [[_ H] | [H _]]; [exact H|lia].
Defined.

(** * The verdict *)

(** Whatever the series hold, [check_times] changes at most [check]. *)
Lemma check_times_loop_state st l n :
  ∀ i loc r st2,
    check_times_loop n i loc st l = Ok (r, st2) →
    st2 = st ∨ st2 = set_check (-1) st.
Proof.
  induction n as [|n IH]; intros i loc r st2 H.
  - injection H as _ <-. by left.
  - cbn [check_times_loop] in H.
    destruct (if i =? 0 then _ else _) as [cand|]; [|discriminate].
    simpl in H.
    destruct (if cand then _ else _) as [[|]|]; [| |discriminate].
    + injection H as _ <-. by right.
    + simpl in H.
      destruct (sample (intervals st) i l); [|discriminate]. simpl in H.
      destruct (sample (intervals_loops st) i l); [|discriminate]. simpl in H.
      destruct (sample (intervals_length st) i l); [|discriminate]. simpl in H.
      by eapply IH.
Qed.

(** Leaving the loop because [stop] is set does not touch [check]. *)
Lemma run_body_stop o st brk st' :
  run_body o st = Ok (brk, st') →
  stop st' ≠ 0 → brk = true ∧ check st' = check st.
Proof.
  intros (sw & st2 & Hw & Hb & ->)%run_body_unfold Hstop.
  apply run_workers_same_globals, same_globals_fields in Hw
    as (_ & _ & _ & Ec & _).
  simpl in Ec. rewrite deliver_eq in Hb.
  assert (check (match sigints o with O => sw | S _ => set_stop 0 sw end)
          = check st) as Ec' by (by destruct (sigints o)).
  revert Hb Ec'.
  generalize (match sigints o with O => sw | S _ => set_stop 0 sw end).
  intros s1 Hb Ec'. unfold run_boundary in Hb.
  destruct (Z.eqb_spec (stop s1) 0) as [Hs | Hs]; simpl in Hb.
  - exfalso.
    destruct (Z.eqb_spec (check s1) 0).
    + injection Hb as <- <-. by apply Hstop.
    + destruct (check_times s1 (loop s1)) as [[r st3]|] eqn:Hct;
        [|discriminate].
      simpl in Hb. injection Hb as <- <-.
      unfold check_times in Hct.
      apply check_times_loop_state in Hct as [-> | ->];
        destruct (negb (r =? 0)); by apply Hstop.
  - injection Hb as <- <-. by split.
Qed.

Lemma mapM_res_total {A B} (f : A → res B) (l : list A) :
  (∀ a, a ∈ l → ∃ b, f a = Ok b) →
  ∃ bs, mapM f l = Ok bs ∧ length bs = length l.
Proof.
  induction l as [|a l IH]; intros Hf.
  - by exists [].
  - destruct (Hf a) as [b Hb]; [by left|].
    destruct IH as (bs & Hbs & Hlen); [intros a' ?; apply Hf; by right|].
    exists (b :: bs). simpl. rewrite Hb. simpl. rewrite Hbs. simpl.
    by rewrite Hlen.
Qed.

(** Once the loop is over, the report has one block per completed run. *)
Lemma print_details_total st :
  boundary_inv st → loop st = nr_runs st →
  ∃ rows, print_details st = Ok rows ∧ Z.of_nat (length rows) = nr_runs st.
Proof.
  intros [Hl (I1 & I2 & I3)] Hend. unfold print_details.
  destruct (mapM_res_total (print_row st) (seqZ 0 (nr_runs st)))
    as (rows & -> & Hlen).
  - intros i Hi%elem_of_seqZ. unfold print_row.
    assert (∀ series,
      held (loop st) (nr_runs st) (Z.to_nat (nr_tasks st)) [] series →
      ∃ vs, mapM (λ t, sample series t i) (seqZ 0 (nr_tasks st)) = Ok vs)
      as Hcol.
    { intros series Hs.
      destruct (mapM_res_total (λ t, sample series t i) (seqZ 0 (nr_tasks st)))
        as (vs & Hvs & _); [|by exists vs].
      intros t Ht%elem_of_seqZ.
      apply (held_has_sample _ _ _ _ t i Hs). lia. }
    destruct (Hcol _ I1) as [a ->]. destruct (Hcol _ I2) as [b ->].
    destruct (Hcol _ I3) as [c ->]. simpl. by eexists.
  - exists rows. split; [done|]. rewrite Hlen, length_seqZ. lia.
Qed.

(** The run loop from a boundary at which nothing has been flagged. *)
Lemma run_loop_verdict obs :
  ∀ st,
    boundary_inv st → stop st = 0 → check st = 1 →
    (∀ l, 0 <= l < loop st → ¬ violation st l) →
    nr_runs st - loop st <= Z.of_nat (length obs) →
    Forall (λ o, round_ok (nr_tasks st) (sched o)) obs →
    ∃ st',
      run_loop obs st = Ok st' ∧ boundary_inv st' ∧ loop st' = nr_runs st' ∧
      ((check st' = 1 ∧ ∀ l, 0 <= l < nr_runs st' → ¬ violation st' l) ∨
       (check st' = -1 ∧ 0 < nr_runs st' ∧ violation st' (nr_runs st' - 1))).
Proof.
  induction obs as [|o obs IH]; intros st Hinv Hstop Hcheck Hclean Hlen Hobs;
    pose proof Hinv as [Hl _]; cbn [run_loop];
    destruct (Z.ltb_spec (loop st) (nr_runs st)) as [Hopen | Hclosed];
    try (simpl in Hlen; lia);
    try (exists st; split; [done|]; split; [done|]; split; [lia|]; left;
         split; [done|]; intros l ?; apply Hclean; lia).
  apply Forall_cons in Hobs as [[Hperm Hclk] Hobs].
  destruct (run_body_total o st Hinv Hopen) as (brk & st1 & Hb); [by split|].
  rewrite Hb. simpl.
  destruct (run_body_spec _ _ _ _ Hb Hinv Hopen Hperm)
    as (Et & Em & Hs & _ & Hlr & Estop & _ & _ & Hv).
  assert (stop st1 = 0) as Hstop1 by (rewrite Estop; by destruct (sigints o)).
  destruct (Hv Hstop1) as [(-> & Hviol & Hc1) | (-> & Hviol & Hc1)]; [lia|..].
  - destruct Hlr as [El Er].
    destruct (boundary_leave _ _ _ Hb Hinv Hopen Hperm) as [Hinv1 Hend].
    exists st1. split; [done|]. split; [done|]. split; [done|]. right.
    split; [done|]. split; [lia|]. by replace (nr_runs st1 - 1) with (loop st) by lia.
  - destruct Hlr as [El Er].
    apply (IH (set_loop (loop st1 + 1) st1)).
    + by eapply boundary_step.
    + exact Hstop1.
    + simpl. lia.
    + simpl. intros l Hln.
      destruct (decide (l = loop st)) as [-> | Hne]; [exact Hviol|].
      intros Hvl. apply (Hclean l); [lia|].
      eapply (violation_same st st1 l); [done|done| |exact Hvl].
      intros i. apply Hs. lia.
    + simpl. simpl in Hlen. lia.
    + simpl. by rewrite Et.
Qed.

Lemma run_test_verdict smin smax obs last_round cfg :
  check cfg = 1 → stop cfg = 0 → 0 <= nr_runs cfg →
  nr_runs cfg <= Z.of_nat (length obs) →
  Forall (λ o, round_ok (nr_tasks cfg) (sched o)) obs →
  Forall clock_ok last_round.*2 →
  ∃ r,
    run_test smin smax obs last_round cfg = Ok r ∧
    boundary_inv (final r) ∧ loop (final r) = nr_runs (final r) ∧
    stop (final r) = 0 ∧
    verdict r = (if check (final r) <? 0 then TFAIL else TPASS) ∧
    Z.of_nat (length (report r)) = nr_runs (final r) ∧
    ((check (final r) = 1 ∧
      ∀ l, 0 <= l < nr_runs (final r) → ¬ violation (final r) l) ∨
     (check (final r) = -1 ∧ 0 < nr_runs (final r) ∧
      violation (final r) (nr_runs (final r) - 1))).
Proof.
  intros Hcheck Hstop Hr Hlen Hobs Hlast. unfold run_test.
  destruct (run_loop_verdict obs (set_loop 0 (run_test_init smin smax cfg)))
    as (st' & Hloop & Hinv & Hend & Hres);
    [by apply init_boundary|done|done|simpl; lia|simpl; lia|done|].
  rewrite Hloop. simpl.
  rewrite run_workers_closed by (done || lia). simpl.
  destruct (print_details_total (set_done 1 st') Hinv Hend)
    as (rows & -> & Hrows).
  simpl. eexists. split; [reflexivity|]. simpl.
  split; [exact Hinv|]. split; [exact Hend|].
  assert (stop st' = 0) as Hs.
  { clear -Hloop Hstop.
    assert (∀ obs st st', run_loop obs st = Ok st' → stop st = 0 → stop st' = 0)
      as Hgen; [|by eapply (Hgen _ _ _ Hloop)].
    clear. induction obs as [|o obs IH]; intros st st' H Hs; cbn [run_loop] in H;
      destruct (loop st <? nr_runs st); try discriminate;
      try (by injection H as <-).
    destruct (run_body o st) as [[brk st1]|] eqn:Hb; [|discriminate].
    simpl in H.
    assert (stop st1 = 0) as Hs1.
    { apply run_body_unfold in Hb as (sw & st2 & Hw & Hb & ->).
      apply run_workers_same_globals, same_globals_fields in Hw
        as (_ & _ & _ & _ & Ep & _). simpl in Ep.
      rewrite deliver_eq in Hb. unfold run_boundary in Hb.
      assert (stop (match sigints o with O => sw | S _ => set_stop 0 sw end)
              = 0) as Hs1 by (destruct (sigints o); [lia|done]).
      revert Hb Hs1.
      generalize (match sigints o with O => sw | S _ => set_stop 0 sw end).
      intros s1 Hb Hs1. rewrite Hs1 in Hb. simpl in Hb.
      destruct (check s1 =? 0).
      - by injection Hb as <- <-.
      - destruct (check_times s1 (loop s1)) as [[r st3]|] eqn:Hct;
          [|discriminate].
        simpl in Hb. injection Hb as <- <-.
        apply check_times_loop_state in Hct as [-> | ->];
          by destruct (negb (r =? 0)). }
    destruct brk; [by injection H as <-|]. by apply (IH _ _ H). }
  split; [exact Hs|]. split; [reflexivity|]. split; [exact Hrows|exact Hres].
Qed.

(** C9: started with [check = 1] and [stop = 0], as the program is, on a
    run count that is not negative and with the observations of enough
    runs, [run_test] reports TFAIL exactly when [check] has been set
    negative, and that is exactly when one of the runs on record has a
    violation that [check_times] confirms; the report has one block per run
    on record.  Moreover, whenever the body of the run loop finds [stop]
    set, it leaves the loop with [check] as it was before the run. *)
Theorem verdict_follows_check smin smax obs last_round cfg :
  (check cfg = 1 → stop cfg = 0 → 0 <= nr_runs cfg →
   nr_runs cfg <= Z.of_nat (length obs) →
   Forall (λ o, round_ok (nr_tasks cfg) (sched o)) obs →
   Forall clock_ok last_round.*2 →
   ∃ r,
     run_test smin smax obs last_round cfg = Ok r ∧
     (verdict r = TFAIL ↔ check (final r) < 0) ∧
     (verdict r = TFAIL ↔
      ∃ l, 0 <= l < nr_runs (final r) ∧ violation (final r) l) ∧
     Z.of_nat (length (report r)) = nr_runs (final r)) ∧
  (∀ o st brk st',
     run_body o st = Ok (brk, st') →
     stop st' ≠ 0 → brk = true ∧ check st' = check st).
Proof.
  split; [|apply run_body_stop].
  intros Hcheck Hstop Hr Hlen Hobs Hlast.
  destruct (run_test_verdict smin smax obs last_round cfg)
    as (r & Hrun & _ & _ & _ & Hv & Hrows & Hres); [done..|].
  exists r. split; [done|]. rewrite Hv.
  destruct Hres as [[Hc Hclean] | (Hc & Hpos & Hviol)]; rewrite Hc.
  - change (1 <? 0) with false. cbv iota.
    split; [|split; [|done]].
    + split; [discriminate|lia].
    + split; [discriminate|]. intros (l & Hl & Hvl). by destruct (Hclean l).
  - change (-1 <? 0) with true. cbv iota.
    split; [|split; [|done]].
    + split; [lia|done].
    + split; [|done]. intros _. exists (nr_runs (final r) - 1).
      split; [clear -Hpos; lia|done].
Qed.

Lemma pass_clock_ok t :
  0 <= t → t + 20 * NS_PER_MS < 2 ^ 64 → clock_ok (pass_clock t).
Proof.
  intros H0 H1.
  exists t, [t + 1000], (t + 20 * NS_PER_MS), (t + 20 * NS_PER_MS + 5000), [].
  split; [reflexivity|]. unfold sub_u64, NS_PER_MS in *.
  rewrite (wrap_u64_small t), (wrap_u64_small (t + _)) by lia.
  replace (t + 20 * 1000000 - t) with 20000000 by lia.
  vm_compute. discriminate.
Defined.

Lemma late_run_ok : round_ok 2 (sched (late_run 200000000)).
Proof.
  split; [reflexivity|].
  constructor; [|constructor; [|constructor]].
  - apply pass_clock_ok; vm_compute; [discriminate|reflexivity].
  - exists 2200002000, [], 2220002000, 2220007000, [].
    split; [reflexivity|]. vm_compute. discriminate.
Defined.

Lemma calm_run_ok t n :
  0 <= t → t + 2000 + 20 * NS_PER_MS < 2 ^ 64 →
  round_ok 2 (sched (calm_run [0; 1] t n)).
Proof.
  intros H0 H1. split; [reflexivity|]. unfold NS_PER_MS in H1.
  constructor; [|constructor; [|constructor]];
    apply pass_clock_ok; unfold NS_PER_MS; lia.
Defined.

Lemma verdict_follows_check_witness :
  let cfg := (parse_args "l" 3 (initial_state 2)).2 in
  let obs := [calm_run [0; 1] 1000000 0; late_run 200000000;
              calm_run [0; 1] 400000000 0] in
  let last_round := [(0, pass_clock 600000000); (1, pass_clock 600000000)] in
  ∃ r,
    run_test 1 99 obs last_round cfg = Ok r ∧
    (verdict r = TFAIL ↔ check (final r) < 0) ∧
    (verdict r = TFAIL ↔
     ∃ l, 0 <= l < nr_runs (final r) ∧ violation (final r) l) ∧
    Z.of_nat (length (report r)) = nr_runs (final r).
Proof.
  intros cfg obs last_round.
  apply (verdict_follows_check 1 99 obs last_round cfg).
  - reflexivity.
  - reflexivity.
  - vm_compute. discriminate.
  - vm_compute. discriminate.
  - constructor; [|constructor; [|constructor; [|constructor]]].
    + apply calm_run_ok; vm_compute; [discriminate|reflexivity].
    + apply late_run_ok.
    + apply calm_run_ok; vm_compute; [discriminate|reflexivity].
  - constructor; [|constructor; [|constructor]];
      apply pass_clock_ok; vm_compute; (discriminate || reflexivity).
Defined.

(** The late run of the witness is flagged and ends the experiment after
    two runs. *)
Example late_run_fails :
  ∃ r,
    run_test 1 99
      [calm_run [0; 1] 1000000 0; late_run 200000000;
       calm_run [0; 1] 400000000 0]
      [(0, pass_clock 600000000); (1, pass_clock 600000000)]
      (parse_args "l" 3 (initial_state 2)).2 = Ok r ∧
    verdict r = TFAIL ∧ nr_runs (final r) = 2 ∧ length (report r) = 2%nat.
Proof. eexists. vm_compute. repeat split; reflexivity. Qed.

(** * The interrupt *)

Lemma stop_log_clears sig st : stop (stop_log sig st) = 0.
Proof. reflexivity. Qed.

(** C3 at the failing input: three runs of two tasks are asked for and an
    interrupt arrives during the first.  The handler leaves [stop] at 0, all
    three runs are carried out, [nr_runs] stays 3 and the report has three
    blocks. *)
Theorem sigint_does_not_stop :
  let cfg := (parse_args "l" 3 (initial_state 2)).2 in
  stop (stop_log SIGINT cfg) = 0 ∧
  ∃ r,
    run_test 1 99
      [calm_run [1; 0] 1000000 1; calm_run [0; 1] 200000000 0;
       calm_run [0; 1] 400000000 0]
      [(0, pass_clock 600000000); (1, pass_clock 600000000)] cfg = Ok r ∧
    stop (final r) = 0 ∧ loop (final r) = 3 ∧ nr_runs (final r) = 3 ∧
    length (report r) = 3%nat ∧ verdict r = TPASS.
Proof. split; [reflexivity|]. eexists. vm_compute. repeat split; reflexivity. Qed.

(** * getxattr01 *)

Lemma nat_of_ascii_inj a b : nat_of_ascii a = nat_of_ascii b → a = b.
Proof.
  intros H. rewrite <- (ascii_nat_embedding a), <- (ascii_nat_embedding b).
  by rewrite H.
Qed.

Lemma memcmp_spec n :
  ∀ s1 s2,
    (n <= length s1)%nat → (n <= length s2)%nat →
    ∃ d, Getxattr01.memcmp s1 s2 n = Ok d ∧ (d = 0 ↔ take n s1 = take n s2).
Proof.
  induction n as [|n IH]; intros s1 s2 H1 H2.
  - exists 0. split; [reflexivity|]. by rewrite !take_0.
  - destruct s1 as [|a s1]; [simpl in H1; lia|].
    destruct s2 as [|b s2]; [simpl in H2; lia|].
    cbn [Getxattr01.memcmp take]. simpl in H1, H2.
    destruct (Ascii.eqb_spec a b) as [-> | Hne].
    + destruct (IH s1 s2) as (d & -> & Hd); [lia..|].
      exists d. split; [done|]. rewrite Hd. split; [by intros ->|].
      by intros [= ?].
    + eexists. split; [reflexivity|]. split.
      * intros Hd. destruct Hne. apply nat_of_ascii_inj. lia.
      * by intros [= ? _].
Qed.

Lemma fill_length old new : length (Getxattr01.fill old new) = length old.
Proof.
  unfold Getxattr01.fill. rewrite length_take, length_app, length_drop. lia.
Qed.

(** The value [setup] stores is the test value without its terminator,
    twenty bytes, and it is what [run] compares the buffer with. *)
Lemma setup_value :
  Getxattr01.setup.2 = list_ascii_of_string Getxattr01.XATTR_TEST_VALUE ∧
  length Getxattr01.setup.2 = 20%nat ∧
  take 20 (Getxattr01.literal Getxattr01.XATTR_TEST_VALUE) = Getxattr01.setup.2.
Proof. by vm_compute. Qed.

(** C10: [run] on a test case whose buffer has room for the test value.
    The first result carries the errno and is a pass exactly when the errno
    left by [getxattr] equals [exp_err], a fail otherwise.  For [exp_err]
    other than 0 that is the only result.  For [exp_err = 0] two more
    results follow: the first is a pass exactly when the return value is
    20, the second exactly when the first 20 bytes of the filled buffer are
    the value written in [setup]; each is a fail otherwise, so both pass
    only when both conditions hold. *)
Theorem getxattr01_run_reports (getxattr : Getxattr01.syscall) i tcs tc :
  index tcs i = Ok tc →
  (20 <= length (Getxattr01.value tc))%nat →
  let out := getxattr Getxattr01.FNAME (Getxattr01.key tc)
               (Getxattr01.value tc) (Getxattr01.size tc) in
  let buf := Getxattr01.fill (Getxattr01.value tc) (Getxattr01.written out) in
  ∃ r1 rest tcs',
    Getxattr01.run getxattr i tcs = Ok (r1 :: rest, tcs') ∧
    Getxattr01.with_errno r1 = true ∧
    (Getxattr01.rtype r1 = TPASS ↔
     Getxattr01.err out = Getxattr01.exp_err tc) ∧
    (Getxattr01.rtype r1 = TFAIL ↔
     Getxattr01.err out ≠ Getxattr01.exp_err tc) ∧
    (Getxattr01.exp_err tc ≠ 0 → rest = []) ∧
    (Getxattr01.exp_err tc = 0 →
     ∃ r2 r3,
       rest = [r2; r3] ∧
       (Getxattr01.rtype r2 = TPASS ↔ Getxattr01.ret out = 20) ∧
       (Getxattr01.rtype r2 = TFAIL ↔ Getxattr01.ret out ≠ 20) ∧
       (Getxattr01.rtype r3 = TPASS ↔ take 20 buf = Getxattr01.setup.2) ∧
       (Getxattr01.rtype r3 = TFAIL ↔ take 20 buf ≠ Getxattr01.setup.2) ∧
       (Forall (λ r, Getxattr01.rtype r = TPASS) rest ↔
        Getxattr01.ret out = 20 ∧ take 20 buf = Getxattr01.setup.2)).
Proof.
  intros Htc Hlen out buf. destruct tc as [k v sz e].
  cbn [Getxattr01.value Getxattr01.key Getxattr01.size Getxattr01.exp_err]
    in Hlen, out, buf |- *.
  destruct (memcmp_spec 20 buf (Getxattr01.literal Getxattr01.XATTR_TEST_VALUE))
    as (d & Hd & Hd0).
  { unfold buf. rewrite fill_length. lia. }
  { vm_compute. lia. }
  destruct setup_value as (_ & _ & Hset). rewrite Hset in Hd0.
  unfold Getxattr01.run. rewrite Htc.
  cbn -[Getxattr01.memcmp Getxattr01.literal Getxattr01.fill Z.to_nat Z.eqb
        Getxattr01.setup].
  change (Z.to_nat Getxattr01.XATTR_TEST_VALUE_SIZE) with 20%nat.
  fold out. fold buf. rewrite Hd.
  cbn -[Getxattr01.memcmp Getxattr01.literal Getxattr01.fill Z.to_nat Z.eqb
        Getxattr01.setup].
  change Getxattr01.XATTR_TEST_VALUE_SIZE with 20.
  set (r1 := if Getxattr01.err out =? e then _ else _).
  set (r2 := Getxattr01.TST_EXP_EQ_LI (Getxattr01.ret out) 20).
  set (r3 := if negb (d =? 0) then _ else _).
  assert (Getxattr01.with_errno r1 = true ∧
          (Getxattr01.rtype r1 = TPASS ↔ Getxattr01.err out = e) ∧
          (Getxattr01.rtype r1 = TFAIL ↔ Getxattr01.err out ≠ e))
    as (H1a & H1b & H1c).
  { unfold r1. destruct (Z.eqb_spec (Getxattr01.err out) e); by repeat split. }
  assert ((Getxattr01.rtype r2 = TPASS ↔ Getxattr01.ret out = 20) ∧
          (Getxattr01.rtype r2 = TFAIL ↔ Getxattr01.ret out ≠ 20))
    as (H2a & H2b).
  { unfold r2, Getxattr01.TST_EXP_EQ_LI.
    destruct (Z.eqb_spec (Getxattr01.ret out) 20); by repeat split. }
  assert ((Getxattr01.rtype r3 = TPASS ↔ take 20 buf = Getxattr01.setup.2) ∧
          (Getxattr01.rtype r3 = TFAIL ↔ take 20 buf ≠ Getxattr01.setup.2))
    as (H3a & H3b).
  { rewrite <- Hd0. unfold r3. destruct (Z.eqb_spec d 0); by repeat split. }
  exists r1.
  destruct (Z.eqb_spec e 0) as [Hz | Hnz]; cbn [negb].
  - exists [r2; r3]. eexists. split; [reflexivity|].
    split; [exact H1a|]. split; [exact H1b|]. split; [exact H1c|].
    split; [done|]. intros _. exists r2, r3. split; [reflexivity|].
    split; [exact H2a|]. split; [exact H2b|].
    split; [exact H3a|]. split; [exact H3b|].
    rewrite <- H2a, <- H3a. split.
    + intros H. apply Forall_cons in H as [? H].
      by apply Forall_cons in H as [? _].
    + intros [? ?]. by repeat constructor.
  - exists []. eexists. split; [reflexivity|].
    split; [exact H1a|]. split; [exact H1b|]. split; [exact H1c|].
    split; [done|]. intros H. by destruct Hnz.
Qed.

Lemma getxattr01_run_reports_witness :
  let getxattr : Getxattr01.syscall :=
    λ _ _ _ _, {| Getxattr01.ret := 20; Getxattr01.err := 0;
                  Getxattr01.written :=
                    list_ascii_of_string Getxattr01.XATTR_TEST_VALUE |} in
  ∃ r1 r2 r3 tcs',
    Getxattr01.run getxattr 2 Getxattr01.tcases = Ok ([r1; r2; r3], tcs') ∧
    Getxattr01.rtype r1 = TPASS ∧ Getxattr01.rtype r2 = TPASS ∧
    Getxattr01.rtype r3 = TPASS.
Proof.
  intros getxattr.
  destruct (getxattr01_run_reports getxattr 2 Getxattr01.tcases
              {| Getxattr01.key := Getxattr01.XATTR_TEST_KEY;
                 Getxattr01.value := replicate 64 Ascii.zero;
                 Getxattr01.size := 63; Getxattr01.exp_err := 0 |})
    as (r1 & rest & tcs' & Hrun & _ & H1 & _ & _ & Hok).
  - reflexivity.
  - vm_compute. lia.
  - destruct (Hok eq_refl) as (r2 & r3 & -> & H2 & _ & H3 & _).
    exists r1, r2, r3, tcs'. split; [exact Hrun|].
    split; [by apply H1|]. split; [by apply H2|]. apply H3. reflexivity.
Defined.

(** * The progress bar *)

Lemma wrap_s32_small z : - 2 ^ 31 <= z < 2 ^ 31 → wrap_s32 z = z.
Proof. intros H. unfold wrap_s32. rewrite Z.mod_small; lia. Qed.

Lemma print_progress_bar_eq percent :
  - 2 ^ 31 <= PROGRESS_CHARS * percent →
  print_progress_bar percent =
    bar_frame ++
    replicate (Z.to_nat (Z.quot (PROGRESS_CHARS * Z.min percent 100) 100))
      "-"%char.
Proof.
  intros H. unfold print_progress_bar, bar_frame, PROGRESS_CHARS in *.
  assert ((if 100 <? percent then 100 else percent) = Z.min percent 100) as ->
    by (destruct (Z.ltb_spec 100 percent); lia).
  rewrite wrap_s32_small by lia.
  change (Z.to_nat 70) with 70%nat. by rewrite <- !app_assoc.
Qed.

(** X1: whatever percentage it is given (short of overflowing the
    product), [print_progress_bar] writes the 75 characters of the empty
    frame followed by dashes only, at most 70 of them, so that the bar never
    runs past its frame; for a negative percentage there is no dash. *)
Theorem print_progress_bar_bounded percent :
  - 2 ^ 31 <= PROGRESS_CHARS * percent →
  ∃ dashes : nat,
    print_progress_bar percent = bar_frame ++ replicate dashes "-"%char ∧
    (dashes <= 70)%nat ∧
    length (print_progress_bar percent) = (75 + dashes)%nat ∧
    (percent < 0 → dashes = 0%nat) ∧
    (100 <= percent → dashes = 70%nat).
Proof.
  intros H. rewrite (print_progress_bar_eq percent H).
  eexists. split; [reflexivity|]. unfold PROGRESS_CHARS in *.
  split; [|split; [|split]].
  - destruct (Z_lt_le_dec (Z.min percent 100) 0) as [Hn | Hp].
    + rewrite Z2Nat.nonpos; [lia|]. apply Z.quot_le_upper_bound; lia.
    + rewrite Z.quot_div_nonneg by lia.
      assert (70 * Z.min percent 100 / 100 <= 70); [|lia].
      apply Z.div_le_upper_bound; lia.
  - rewrite length_app, length_replicate. by f_equal.
  - intros Hn. rewrite Z2Nat.nonpos; [done|].
    apply Z.quot_le_upper_bound; lia.
  - intros Hfull. by rewrite Z.min_r by lia.
Qed.

Lemma print_progress_bar_bounded_witness :
  ∃ dashes : nat,
    print_progress_bar 50 = bar_frame ++ replicate dashes "-"%char ∧
    (dashes <= 70)%nat ∧
    length (print_progress_bar 50) = (75 + dashes)%nat ∧
    (50 < 0 → dashes = 0%nat) ∧
    (100 <= 50 → dashes = 70%nat).
Proof. apply (print_progress_bar_bounded 50). vm_compute. discriminate. Defined.

(** X2: inside the run loop, where [0 <= loop < nr_runs], the percentage
    handed to the bar is below 100 and the bar drawn has fewer than 70
    dashes: the bar is never drawn full while runs are under way. *)
Theorem progress_never_full_in_loop st :
  0 <= loop st < nr_runs st → loop st * 100 < 2 ^ 31 →
  0 <= progress_percent st < 100 ∧
  ∃ dashes : nat,
    print_progress_bar (progress_percent st) =
      bar_frame ++ replicate dashes "-"%char ∧
    (dashes < 70)%nat.
Proof.
  intros Hl Hov. unfold progress_percent.
  rewrite wrap_s32_small by lia. rewrite Z.quot_div_nonneg by lia.
  assert (0 <= loop st * 100 / nr_runs st < 100) as Hp.
  { split; [apply Z.div_pos; lia|]. apply Z.div_lt_upper_bound; lia. }
  split; [exact Hp|].
  rewrite print_progress_bar_eq by (unfold PROGRESS_CHARS; lia).
  eexists. split; [reflexivity|]. unfold PROGRESS_CHARS.
  rewrite Z.min_l by lia. rewrite Z.quot_div_nonneg by lia.
  assert (70 * (loop st * 100 / nr_runs st) / 100 < 70); [|lia].
  apply Z.div_lt_upper_bound; lia.
Qed.

Lemma progress_never_full_in_loop_witness :
  let st := set_loop 49 (initial_state 2) in
  0 <= progress_percent st < 100 ∧
  ∃ dashes : nat,
    print_progress_bar (progress_percent st) =
      bar_frame ++ replicate dashes "-"%char ∧
    (dashes < 70)%nat.
Proof.
  intros st. apply (progress_never_full_in_loop st); vm_compute;
    [split; [discriminate|reflexivity]|reflexivity].
Defined.

(** * The trace marker *)

Lemma find_marker_none stat files :
  Forall (λ f, stat f < 0) files → find_marker stat files = None.
Proof.
  induction 1 as [|f files Hf _ IH]; [done|]. cbn [find_marker].
  destruct (Z.leb_spec 0 (stat f)); [lia|done].
Qed.

Lemma find_marker_first stat pre f post :
  Forall (λ g, stat g < 0) pre → 0 <= stat f →
  find_marker stat (pre ++ f :: post) = Some f.
Proof.
  intros Hpre Hf. induction Hpre as [|g pre Hg _ IH]; cbn [app find_marker].
  - destruct (Z.leb_spec 0 (stat f)); [done|lia].
  - destruct (Z.leb_spec 0 (stat g)); [lia|done].
Qed.

(** X3: [setup_ftrace_marker] opens the first of the three marker paths, in
    the order of the table, for which [stat] succeeds, and no other; when
    [stat] fails for all three it opens nothing and [mark_fd] keeps its
    value, so that with the initial -1 no [ftrace_write] ever calls
    [write]. *)
Theorem setup_ftrace_marker_first stat open mark_fd :
  (∀ pre f post,
     marker_files = pre ++ f :: post →
     Forall (λ g, stat g < 0) pre → 0 <= stat f →
     setup_ftrace_marker stat open mark_fd = open f) ∧
  (Forall (λ g, stat g < 0) marker_files →
   setup_ftrace_marker stat open mark_fd = mark_fd ∧
   (mark_fd < 0 →
    ∀ n, ftrace_write (setup_ftrace_marker stat open mark_fd) n = None)).
Proof.
  split.
  - intros pre f post Hfiles Hpre Hf. unfold setup_ftrace_marker.
    by rewrite Hfiles, find_marker_first.
  - intros Hnone. unfold setup_ftrace_marker.
    rewrite find_marker_none by done. split; [done|].
    intros Hfd n. unfold ftrace_write.
    destruct (Z.ltb_spec mark_fd 0); [done|lia].
Qed.

Lemma setup_ftrace_marker_first_witness :
  let stat := λ f : string,
    if String.eqb f "/debug/tracing/trace_marker" then 0 else -1 in
  let open := λ f : string, Z.of_nat (String.length f) in
  setup_ftrace_marker stat open (-1) = 27 ∧
  (setup_ftrace_marker (λ _, -1) open (-1) = -1 ∧
   (-1 < 0 →
    ∀ n, ftrace_write (setup_ftrace_marker (λ _, -1) open (-1)) n = None)).
Proof.
  intros stat open. split.
  - destruct (setup_ftrace_marker_first stat open (-1)) as [H _].
    apply (H ["/sys/kernel/debug/tracing/trace_marker"%string]
             "/debug/tracing/trace_marker"%string
             ["/debugfs/tracing/trace_marker"%string]).
    + reflexivity.
    + constructor; [vm_compute; reflexivity|constructor].
    + vm_compute. discriminate.
  - destruct (setup_ftrace_marker_first (λ _, -1) open (-1)) as [_ H].
    apply H. repeat constructor.
Defined.

(** * The CPU rotation *)

(** X4: the highest-priority task only ever pins itself to a CPU of the
    mask it read at start, or to CPU 0. *)
Theorem rotation_within_mask save_cpumask passes :
  ∀ cpu,
    Forall (λ c, save_cpumask c = true ∨ c = 0)
      (rotation save_cpumask cpu passes).
Proof.
  induction passes as [|n IH]; intros cpu; cbn [rotation rotate_cpu].
  - constructor.
  - constructor; [|apply IH].
    destruct (save_cpumask cpu) eqn:Hc; [by left|by right].
Qed.

Lemma rotation_from n passes :
  0 < n →
  ∀ cpu,
    0 <= cpu <= n →
    rotation (λ c, (0 <=? c) && (c <? n)) cpu passes =
    (λ k, (cpu + Z.of_nat k) mod n) <$> seq 0 passes.
Proof.
  intros Hn. induction passes as [|m IH]; intros cpu Hc; [done|].
  cbn [rotation rotate_cpu seq fmap list_fmap].
  assert ((if (0 <=? cpu) && (cpu <? n) then cpu else 0) = cpu mod n) as ->.
  { destruct (Z.leb_spec 0 cpu); [|lia]. simpl.
    destruct (Z.ltb_spec cpu n).
    - by rewrite Z.mod_small by lia.
    - replace cpu with n by lia. by rewrite Z.mod_same by lia. }
  f_equal; [f_equal; lia|].
  rewrite IH by (pose proof (Z.mod_pos_bound cpu n Hn); lia).
  rewrite <- fmap_S_seq, <- list_fmap_compose.
  apply list_fmap_ext. intros _ k _. simpl.
  rewrite <- Z.add_assoc, Z.add_mod_idemp_l by lia. f_equal. lia.
Qed.

(** X5: when the mask read at start is CPUs 0 .. n-1, the task visits
    them round-robin: its k-th pass runs on CPU k mod n. *)
Theorem rotation_round_robin n passes :
  0 < n →
  rotation (λ c, (0 <=? c) && (c <? n)) 0 passes =
  (λ k, Z.of_nat k mod n) <$> seq 0 passes.
Proof. intros Hn. by rewrite rotation_from by lia. Qed.

Lemma rotation_round_robin_witness :
  rotation (λ c, (0 <=? c) && (c <? 3)) 0 7 = [0; 1; 2; 0; 1; 2; 0].
Proof. rewrite (rotation_round_robin 3 7) by lia. reflexivity. Defined.

(** * parse_args *)

(** X6: [parse_args] reports the option as not handled exactly for [?] and
    [h]; whatever the option, it leaves the task count, [check], [stop],
    [loop] and the three series alone, and an option other than
    [a r t l e] changes nothing at all. *)
Theorem parse_args_handled c v st :
  ((parse_args c v st).1 = 0 ↔ c = "?"%char ∨ c = "h"%char) ∧
  ((parse_args c v st).1 = 0 ∨ (parse_args c v st).1 = 1) ∧
  (nr_tasks (parse_args c v st).2 = nr_tasks st ∧
   check (parse_args c v st).2 = check st ∧
   stop (parse_args c v st).2 = stop st ∧
   loop (parse_args c v st).2 = loop st ∧
   intervals (parse_args c v st).2 = intervals st ∧
   intervals_length (parse_args c v st).2 = intervals_length st ∧
   intervals_loops (parse_args c v st).2 = intervals_loops st) ∧
  (c ≠ "a"%char → c ≠ "r"%char → c ≠ "t"%char → c ≠ "l"%char →
   c ≠ "e"%char → (parse_args c v st).2 = st).
Proof.
  unfold parse_args, usage_requested.
  destruct (Ascii.eqb_spec c "a") as [-> | Ha];
    [simpl; repeat split; auto; try discriminate;
     try (intros [H | H]; discriminate H); congruence|].
  destruct (Ascii.eqb_spec c "r") as [-> | Hr];
    [simpl; repeat split; auto; try discriminate;
     try (intros [H | H]; discriminate H); congruence|].
  destruct (Ascii.eqb_spec c "t") as [-> | Ht];
    [simpl; repeat split; auto; try discriminate;
     try (intros [H | H]; discriminate H); congruence|].
  destruct (Ascii.eqb_spec c "l") as [-> | Hl];
    [simpl; repeat split; auto; try discriminate;
     try (intros [H | H]; discriminate H); congruence|].
  destruct (Ascii.eqb_spec c "e") as [-> | He];
    [simpl; repeat split; auto; try discriminate;
     try (intros [H | H]; discriminate H); congruence|].
  destruct (Ascii.eqb_spec c "?") as [-> | Hq];
    [simpl; repeat split; auto|].
  destruct (Ascii.eqb_spec c "h") as [-> | Hh];
    [simpl; repeat split; auto|].
  simpl. repeat split; auto; try discriminate. by intros [? | ?].
Qed.

Lemma parse_args_cases c :
  c = "a"%char ∨ c = "r"%char ∨ c = "t"%char ∨ c = "l"%char ∨ c = "e"%char ∨
  (∀ v st, (parse_args c v st).2 = st).
Proof.
  destruct (Ascii.eqb_spec c "a"); [by left|right].
  destruct (Ascii.eqb_spec c "r"); [by left|right].
  destruct (Ascii.eqb_spec c "t"); [by left|right].
  destruct (Ascii.eqb_spec c "l"); [by left|right].
  destruct (Ascii.eqb_spec c "e"); [by left|right].
  intros v st. unfold parse_args.
  destruct (Ascii.eqb_spec c "a"); [done|].
  destruct (Ascii.eqb_spec c "r"); [done|].
  destruct (Ascii.eqb_spec c "t"); [done|].
  destruct (Ascii.eqb_spec c "l"); [done|].
  destruct (Ascii.eqb_spec c "e"); [done|].
  by destruct (usage_requested c).
Qed.

(** X7: two different options can be given in either order: the state
    after both is the same. *)
Theorem parse_args_commute c1 v1 c2 v2 st :
  c1 ≠ c2 →
  (parse_args c1 v1 (parse_args c2 v2 st).2).2 =
  (parse_args c2 v2 (parse_args c1 v1 st).2).2.
Proof.
  intros Hne.
  destruct (parse_args_cases c1) as [-> | [-> | [-> | [-> | [-> | H1]]]]];
    destruct (parse_args_cases c2) as [-> | [-> | [-> | [-> | [-> | H2]]]]];
    try done; rewrite ?H1, ?H2; try reflexivity; by rewrite ?H1, ?H2.
Qed.

Lemma parse_args_commute_witness :
  (parse_args "l" 10 (parse_args "e" 500 (initial_state 2)).2).2 =
  (parse_args "e" 500 (parse_args "l" 10 (initial_state 2)).2).2.
Proof. apply parse_args_commute. discriminate. Defined.

Lemma parse_args_handled_witness :
  (parse_args "h" 0 (initial_state 2)).1 = 0 ∧
  (parse_args "x" 7 (initial_state 2)).2 = initial_state 2.
Proof.
  destruct (parse_args_handled "h" 0 (initial_state 2)) as ([_ Hh] & _).
  destruct (parse_args_handled "x" 7 (initial_state 2)) as (_ & _ & _ & Hx).
  split; [apply Hh; by right|apply Hx; discriminate].
Defined.

(** * The priorities run_test hands out *)







(** * More on check_times *)

(** X10: with a single task, or none, [check_times] flags nothing: a
    complete run is passed with [check] untouched. *)
Theorem check_times_single_task st l :
  nr_tasks st <= 1 → run_recorded st l → check_times st l = Ok (0, st).
Proof.
  intros Hn Hrec.
  destruct (check_times_run st l Hrec) as [[(i & Hi & _) _] | [_ H]];
    [lia|exact H].
Qed.

Lemma check_times_single_task_witness :
  let st := set_series [Container 1 [Rec 0 10]] [Container 1 [Rec 0 20030]]
              [Container 1 [Rec 0 7]] (set_nr_runs 1 (initial_state 1)) in
  check_times st 0 = Ok (0, st).
Proof.
  intros st. apply (check_times_single_task st 0); [vm_compute; discriminate|].
  intros i Hi. change (nr_tasks st) with 1 in Hi.
  assert (i = 0) as -> by lia.
  repeat split; eexists; vm_compute; reflexivity.
Defined.

(** X11: a complete run in which no task starts more than [max_err] after
    the task below it is passed, whatever the loop counts and end offsets
    are. *)
Theorem check_times_within_tolerance st l :
  run_recorded st l →
  (∀ i, 0 < i < nr_tasks st →
        in_long (start_at st i l - start_at st (i - 1) l) ∧
        start_at st i l - start_at st (i - 1) l <= max_err st) →
  check_times st l = Ok (0, st).
Proof.
  intros Hrec Htol.
  destruct (check_times_run st l Hrec) as [[(i & Hi & [Hc _]) _] | [_ H]];
    [|exact H].
  destruct (Htol i Hi) as [Hin Hle].
  apply candidate_exact in Hc; [lia|exact Hin].
Qed.

Lemma check_times_within_tolerance_witness :
  let st := set_series
              [Container 1 [Rec 0 10]; Container 1 [Rec 0 900000]]
              [Container 1 [Rec 0 20030]; Container 1 [Rec 0 5]]
              [Container 1 [Rec 0 7]; Container 1 [Rec 0 1]]
              (set_nr_runs 1 (initial_state 2)) in
  check_times st 0 = Ok (0, st).
Proof.
  intros st. apply (check_times_within_tolerance st 0).
  - intros i Hi. change (nr_tasks st) with 2 in Hi.
    assert (i = 0 ∨ i = 1) as [-> | ->] by lia;
      (repeat split; eexists; vm_compute; reflexivity).
  - intros i Hi. change (nr_tasks st) with 2 in Hi.
    assert (i = 1) as -> by lia.
    vm_compute. repeat split; discriminate.
Defined.

Lemma check_times_loop_result st l n :
  ∀ i loc r st2,
    check_times_loop n i loc st l = Ok (r, st2) →
    (r = 0 ∧ st2 = st) ∨ (r = 1 ∧ st2 = set_check (-1) st).
Proof.
  induction n as [|n IH]; intros i loc r st2 H.
  - injection H as <- <-. by left.
  - cbn [check_times_loop] in H.
    destruct (if i =? 0 then _ else _) as [cand|]; [|discriminate].
    simpl in H.
    destruct (if cand then _ else _) as [[|]|]; [| |discriminate].
    + injection H as <- <-. by right.
    + simpl in H.
      destruct (sample (intervals st) i l); [|discriminate]. simpl in H.
      destruct (sample (intervals_loops st) i l); [|discriminate]. simpl in H.
      destruct (sample (intervals_length st) i l); [|discriminate]. simpl in H.
      by eapply IH.
Qed.

(** X12: on any state and any run index, when [check_times] returns it
    has either returned 0 and changed nothing, or returned 1 and set
    [check] to -1 and nothing else; it never clears [check] and never
    touches the series. *)
Theorem check_times_only_check st l r st' :
  check_times st l = Ok (r, st') →
  (r = 0 ∧ st' = st) ∨ (r = 1 ∧ st' = set_check (-1) st).
Proof. apply check_times_loop_result. Qed.

Lemma check_times_only_check_witness :
  ∃ r st',
    check_times preempted_state 0 = Ok (r, st') ∧
    ((r = 0 ∧ st' = preempted_state) ∨
     (r = 1 ∧ st' = set_check (-1) preempted_state)).
Proof.
  destruct (check_times preempted_state 0) as [[r st']|] eqn:H;
    [|vm_compute in H; discriminate].
  exists r, st'. split; [reflexivity|].
  exact (check_times_only_check preempted_state 0 r st' H).
Defined.

(** * More on busy_loop *)

(** X13: when [busy_loop] returns, the last reading it took is the first
    one that is RUN_INTERVAL or more past the start (in 64-bit unsigned
    arithmetic), the readings after it are untouched, and the count returned
    is the number of readings taken, which is positive short of 2^64
    readings. *)
Theorem busy_loop_exit start_time clk l rest :
  busy_loop start_time clk = Ok (l, rest) →
  ∃ pre t,
    clk = pre ++ t :: rest ∧
    Forall (λ u, sub_u64 (wrap_u64 u) start_time < RUN_INTERVAL) pre ∧
    RUN_INTERVAL <= sub_u64 (wrap_u64 t) start_time ∧
    l = wrap_u64 (Z.of_nat (S (length pre))) ∧
    (Z.of_nat (length clk) < 2 ^ 64 → l = Z.of_nat (S (length pre)) ∧ 0 < l).
Proof.
  intros H.
  destruct (busy_loop_from_returns _ _ _ _ _ H) as (pre & t & -> & Hpre & Ht & ->).
  exists pre, t. split; [done|]. split; [done|]. split; [done|].
  split; [f_equal|]. intros Hlen. rewrite length_app in Hlen. simpl in Hlen.
  rewrite wrap_u64_small; lia.
Qed.

Lemma busy_loop_exit_witness :
  ∃ pre t,
    [10000000; 20000000; 30000000] = pre ++ t :: [30000000] ∧
    Forall (λ u, sub_u64 (wrap_u64 u) 0 < RUN_INTERVAL) pre ∧
    RUN_INTERVAL <= sub_u64 (wrap_u64 t) 0 ∧
    2 = wrap_u64 (Z.of_nat (S (length pre))) ∧
    (Z.of_nat (length [10000000; 20000000; 30000000]) < 2 ^ 64 →
     2 = Z.of_nat (S (length pre)) ∧ 0 < 2).
Proof.
  apply (busy_loop_exit 0 [10000000; 20000000; 30000000] 2 [30000000]).
  vm_compute. reflexivity.
Defined.

Lemma busy_loop_from_stuck clk :
  ∀ l start_time,
    Forall (λ u, sub_u64 (wrap_u64 u) start_time < RUN_INTERVAL) clk →
    busy_loop_from l start_time clk = Err ClockExhausted.
Proof.
  induction clk as [|u clk IH]; intros l start_time H; [done|].
  apply Forall_cons in H as [Hu H]. cbn [busy_loop_from].
  destruct (Z.ltb_spec (sub_u64 (wrap_u64 u) start_time) RUN_INTERVAL);
    [by apply IH|lia].
Qed.

(** X14: [busy_loop] returns exactly when the clock shows a reading that is
    RUN_INTERVAL or more past the start; as long as every reading stays
    short of that, the loop goes on. *)
Theorem busy_loop_returns_iff start_time clk :
  (∃ l rest, busy_loop start_time clk = Ok (l, rest)) ↔
  Exists (λ t, RUN_INTERVAL <= sub_u64 (wrap_u64 t) start_time) clk.
Proof.
  split.
  - intros (l & rest & H).
    destruct (busy_loop_from_returns _ _ _ _ _ H) as (pre & t & -> & _ & Ht & _).
    apply Exists_app. right. by left.
  - intros H. apply Exists_exists in H as (t & Hin & Ht).
    apply list_elem_of_split in Hin as (pre & post & ->).
    destruct (busy_loop_from_total pre 0 start_time t post Ht) as (l & q & Hq).
    by exists l, (q ++ post).
Qed.

Lemma busy_loop_returns_iff_witness :
  ∃ l rest, busy_loop 0 [10000000; 20000000; 30000000] = Ok (l, rest).
Proof.
  apply (busy_loop_returns_iff 0 [10000000; 20000000; 30000000]).
  right. left. vm_compute. discriminate.
Defined.

(** * More on record_time *)

Lemma start_task_iter_open_eq id t0 clk st tr clk' st' :
  start_task_iter id (t0 :: clk) st = Ok (tr, clk', st') →
  loop st < nr_runs st →
  ∃ l t1 c1 c2 c3,
    busy_loop (wrap_u64 t0) clk = Ok (l, t1 :: clk') ∧
    index (intervals st) id = Ok c1 ∧
    index (intervals_length st) id = Ok c2 ∧
    index (intervals_loops st) id = Ok c3 ∧
    st' = set_series
            (<[Z.to_nat id := stats_container_append c1
                 {| x := loop st;
                    y := wrap_s64 (sub_u64 (wrap_u64 t0 / NS_PER_US) (now st)) |}]>
               (intervals st))
            (<[Z.to_nat id := stats_container_append c2
                 {| x := loop st;
                    y := wrap_s64 (sub_u64 (wrap_u64 t1 / NS_PER_US) (now st)) |}]>
               (intervals_length st))
            (<[Z.to_nat id := stats_container_append c3
                 {| x := loop st; y := wrap_s64 l |}]>
               (intervals_loops st))
            st.
Proof.
  unfold start_task_iter. cbn [rt_gettime]. simpl. intros H Hopen.
  destruct (busy_loop (wrap_u64 t0) clk) as [[l clk1]|]; [|discriminate].
  simpl in H. unfold record_time in H.
  destruct (Z.leb_spec (nr_runs st) (loop st)) as [Hc | _]; [lia|].
  destruct clk1 as [|t1 clk2]; [discriminate|]. simpl in H.
  unfold append_at in H.
  destruct (index (intervals st) id) as [c1|]; [|discriminate].
  destruct (index (intervals_length st) id) as [c2|]; [|discriminate].
  destruct (index (intervals_loops st) id) as [c3|]; [|discriminate].
  simpl in H. injection H as _ <- <-.
  by exists l, t1, c1, c2, c3.
Qed.

(** Reading back the sample that was just appended. *)
Lemma sample_insert_new series id c r k :
  index series id = Ok c →
  Z.of_nat (length (records c)) = k → k < size c →
  sample (<[Z.to_nat id := stats_container_append c r]> series) id k = Ok (y r).
Proof.
  intros [Hid Hc]%index_Ok Hk Hroom. unfold sample, index.
  destruct (Z.ltb_spec id 0); [lia|].
  rewrite list_lookup_insert_eq by (by eapply lookup_lt_Some). simpl.
  destruct (Z.ltb_spec k 0); [lia|].
  rewrite append_room by lia. simpl.
  rewrite lookup_app_r by lia.
  replace (Z.to_nat k - length (records c))%nat with 0%nat by lia. done.
Qed.

Lemma held_fresh_task k cap n D series id c :
  held k cap n D series → index series id = Ok c → id ∉ D →
  Z.of_nat (length (records c)) = k ∧ cap <= size c.
Proof.
  intros [_ Hall] [Hid Hc]%index_Ok HD. destruct (Hall _ _ Hc) as [Hcap Hrec].
  rewrite Z2Nat.id in Hrec by lia. rewrite decide_False in Hrec by done. lia.
Qed.

(** X15: on a clock that does not go backwards and stays below 2^63 ns,
    with the run epoch not after the task's start, the samples a task
    records for an accepted run satisfy: the start offset is not negative,
    and the value in the second series is at least 20000 us (RUN_INTERVAL)
    above the start offset. *)
Theorem recorded_end_after_start st D id t0 clk tr clk' st' :
  start_task_iter id (t0 :: clk) st = Ok (tr, clk', st') →
  0 <= loop st < nr_runs st → round_inv st D → id ∉ D →
  0 <= t0 → StronglySorted Z.le (t0 :: clk) → Forall (λ u, u < 2 ^ 63) clk →
  0 <= now st <= t0 / NS_PER_US →
  ∃ s e,
    sample (intervals st') id (loop st) = Ok s ∧
    sample (intervals_length st') id (loop st) = Ok e ∧
    0 <= s ∧ s + 20000 <= e.
Proof.
  intros H Hopen (I1 & I2 & _) HD Ht0 Hsorted Hbound Hnow.
  apply start_task_iter_open_eq in H
    as (l & t1 & c1 & c2 & c3 & Hb & H1 & H2 & H3 & ->); [|lia].
  destruct (held_fresh_task _ _ _ _ _ _ _ I1 H1 HD) as [L1 R1].
  destruct (held_fresh_task _ _ _ _ _ _ _ I2 H2 HD) as [L2 R2].
  eexists _, _. simpl.
  split; [apply sample_insert_new; [done|done|lia]|].
  split; [apply sample_insert_new; [done|done|lia]|]. simpl.
  destruct (busy_loop_from_returns _ _ _ _ _ Hb)
    as (pre & e' & -> & _ & He & _).
  apply StronglySorted_cons in Hsorted as [Hge Hsorted].
  apply StronglySorted_app_1_r, StronglySorted_cons in Hsorted as [Hge' _].
  apply Forall_app in Hge as [_ Hge]. apply Forall_cons in Hge as [Hte _].
  apply Forall_cons in Hge' as [Het1 _].
  apply Forall_app in Hbound as [_ Hbound].
  apply Forall_cons in Hbound as [He63 Hbound].
  apply Forall_cons in Hbound as [Ht63 _].
  unfold sub_u64, RUN_INTERVAL, NS_PER_MS, NS_PER_US in *.
  rewrite (wrap_u64_small t0) in * by lia.
  rewrite (wrap_u64_small e'), (wrap_u64_small (e' - t0)) in He by lia.
  rewrite (wrap_u64_small t1) by lia.
  change (wrap_u64 (20 * 1000000)) with 20000000 in He.
  assert (t0 / 1000 + 20000 <= t1 / 1000) as Hdiv.
  { rewrite <- (Z.div_add t0 20000 1000) by lia. apply Z.div_le_mono; lia. }
  assert (t1 / 1000 < 2 ^ 63) by (apply Z.div_lt_upper_bound; lia).
  assert (0 <= t0 / 1000) by (apply Z.div_pos; lia).
  rewrite !wrap_u64_small by lia. rewrite !wrap_s64_small by (unfold in_long; lia).
  lia.
Qed.

Lemma recorded_end_after_start_witness :
  let st := set_now 100
              (set_loop 0
                 (run_test_init 1 99 (parse_args "l" 1 (initial_state 1)).2)) in
  ∃ tr clk' st' s e,
    start_task_iter 0 [150000; 20150000; 20155000] st = Ok (tr, clk', st') ∧
    sample (intervals st') 0 (loop st) = Ok s ∧
    sample (intervals_length st') 0 (loop st) = Ok e ∧
    0 <= s ∧ s + 20000 <= e.
Proof.
  intros st.
  destruct (start_task_iter 0 [150000; 20150000; 20155000] st)
    as [[[tr clk'] st']|] eqn:Hrun; [|vm_compute in Hrun; discriminate].
  destruct (recorded_end_after_start st [] 0 150000 [20150000; 20155000]
              tr clk' st' Hrun) as (s & e & Hs & He & Hpos & Hspan).
  - vm_compute. split; [discriminate|reflexivity].
  - apply (init_boundary 1 99 (parse_args "l" 1 (initial_state 1)).2).
    vm_compute. discriminate.
  - apply not_elem_of_nil.
  - lia.
  - repeat constructor; lia.
  - repeat constructor.
  - vm_compute. split; discriminate.
  - by exists tr, clk', st', s, e.
Defined.

(** * The run index of the samples *)

Lemma tagged_insert series id c r k :
  tagged series → index series id = Ok c →
  Z.of_nat (length (records c)) = k → x r = k →
  tagged (<[Z.to_nat id := stats_container_append c r]> series).
Proof.
  intros Ht [Hid Hc]%index_Ok Hk Hx j c' i r' Hj Hi.
  destruct (decide (j = Z.to_nat id)) as [-> | Hne].
  - rewrite list_lookup_insert_eq in Hj by (by eapply lookup_lt_Some).
    injection Hj as <-. unfold stats_container_append in Hi.
    destruct (_ <? _); [|by eapply Ht]. simpl in Hi.
    apply lookup_app_Some in Hi as [Hi | [Hge Hi]]; [by eapply Ht|].
    apply list_lookup_singleton_Some in Hi as [Hz <-]. lia.
  - rewrite list_lookup_insert_ne in Hj by done. by eapply Ht.
Qed.

Lemma start_task_iter_tagged id clk st tr clk' st' D :
  start_task_iter id clk st = Ok (tr, clk', st') →
  round_inv st D → id ∉ D → all_tagged st → all_tagged st'.
Proof.
  intros H (I1 & I2 & I3) HD (T1 & T2 & T3).
  destruct (Z_lt_le_dec (loop st) (nr_runs st)) as [Hopen | Hclosed].
  - destruct clk as [|t0 clk]; [discriminate|].
    apply start_task_iter_open_eq in H
      as (l & t1 & c1 & c2 & c3 & _ & H1 & H2 & H3 & ->); [|done].
    destruct (held_fresh_task _ _ _ _ _ _ _ I1 H1 HD) as [L1 _].
    destruct (held_fresh_task _ _ _ _ _ _ _ I2 H2 HD) as [L2 _].
    destruct (held_fresh_task _ _ _ _ _ _ _ I3 H3 HD) as [L3 _].
    split; [|split]; simpl; by eapply tagged_insert.
  - apply start_task_iter_inv in H as [[_ ->] | [? _]]; [done|lia].
Qed.

Lemma run_workers_tagged sch :
  ∀ st D st',
    run_workers sch st = Ok st' →
    loop st < nr_runs st → round_inv st D →
    NoDup sch.*1 → (∀ id, id ∈ sch.*1 → id ∉ D) →
    all_tagged st → all_tagged st'.
Proof.
  induction sch as [|[id clk] sch IH]; intros st D st' H Hopen Hinv Hnd HD Ht.
  - by injection H as <-.
  - cbn [run_workers] in H.
    destruct (start_task_iter id clk st) as [[[tr clk'] st1]|] eqn:Hpass;
      [|discriminate].
    simpl in H. apply NoDup_cons in Hnd as [Hid Hnd].
    assert (id ∉ D) as HidD by (apply HD; by left).
    destruct (start_task_iter_open _ _ _ _ _ _ D Hpass Hopen Hinv HidD)
      as (Hinv1 & Hg1 & _).
    destruct (same_globals_fields _ _ Hg1) as (_ & Hr & Hl & _).
    apply (IH st1 (id :: D) st' H); [lia|done|done| |].
    + intros id' Hin [-> | Hin']%elem_of_cons; [done|].
      apply (HD id'); [by right|done].
    + by eapply start_task_iter_tagged.
Qed.

(** The series after the body of the run loop are those the workers
    left. *)
Lemma run_body_series o st brk st' :
  run_body o st = Ok (brk, st') →
  ∃ sw,
    run_workers (sched o) (set_now (wrap_u64 (epoch o) / NS_PER_US) st) = Ok sw ∧
    intervals st' = intervals sw ∧
    intervals_length st' = intervals_length sw ∧
    intervals_loops st' = intervals_loops sw.
Proof.
  intros (sw & st2 & Hw & Hb & ->)%run_body_unfold. exists sw.
  split; [done|]. rewrite deliver_eq in Hb.
  assert (intervals st2 = intervals sw ∧
          intervals_length st2 = intervals_length sw ∧
          intervals_loops st2 = intervals_loops sw) as (E1 & E2 & E3).
  { revert Hb.
    assert (∀ s1, intervals s1 = intervals sw →
                  intervals_length s1 = intervals_length sw →
                  intervals_loops s1 = intervals_loops sw →
                  run_boundary s1 = Ok (brk, st2) →
                  intervals st2 = intervals sw ∧
                  intervals_length st2 = intervals_length sw ∧
                  intervals_loops st2 = intervals_loops sw) as Hgen.
    { intros s1 F1 F2 F3 Hb. unfold run_boundary in Hb.
      destruct (negb (stop s1 =? 0)); [by injection Hb as _ <-|].
      destruct (check s1 =? 0); [by injection Hb as _ <-|].
      destruct (check_times s1 (loop s1)) as [[r st3]|] eqn:Hct;
        [|discriminate].
      simpl in Hb. injection Hb as _ <-.
      by apply check_times_loop_state in Hct as [-> | ->]. }
    destruct (sigints o); by apply Hgen. }
  by destruct brk.
Qed.

Lemma at_boundary_tagged smin smax cfg st :
  0 <= nr_runs cfg → at_boundary smin smax cfg st → all_tagged st.
Proof.
  intros Hr Hat. induction Hat as [|st o st' Hat IH Hopen Hperm Hb
                                   |st o st' Hat IH Hopen Hperm Hb].
  - assert (∀ n c, tagged (replicate n (stats_container_init c))) as Hfresh.
    { intros n c j c' k r [-> _]%lookup_replicate Hk. by destruct k. }
    split; [|split]; apply Hfresh.
  - pose proof (at_boundary_inv _ _ _ _ Hr Hat) as [_ Hinv].
    apply run_body_series in Hb as (sw & Hw & E1 & E2 & E3).
    unfold all_tagged. simpl. rewrite E1, E2, E3.
    apply (run_workers_tagged _ _ [] _ Hw);
      [exact Hopen|exact Hinv| |intros ? _; apply not_elem_of_nil|exact IH].
    rewrite Hperm. apply NoDup_seqZ.
  - pose proof (at_boundary_inv _ _ _ _ Hr Hat) as [_ Hinv].
    apply run_body_series in Hb as (sw & Hw & E1 & E2 & E3).
    unfold all_tagged. rewrite E1, E2, E3.
    apply (run_workers_tagged _ _ [] _ Hw);
      [exact Hopen|exact Hinv| |intros ? _; apply not_elem_of_nil|exact IH].
    rewrite Hperm. apply NoDup_seqZ.
Qed.

(** X16: at every run boundary of [run_test], for a run count that is not
    negative, every sample of every series of every task is tagged with the
    index of the run it belongs to: the sample at position [k] has [x = k].
    Together with the equal lengths, each series is the sequence of pairs
    (0, _), (1, _), ... of the runs carried out. *)
Theorem samples_tagged_with_run smin smax cfg st :
  0 <= nr_runs cfg → at_boundary smin smax cfg st →
  ∀ series,
    series = intervals st ∨ series = intervals_length st ∨
    series = intervals_loops st →
    ∀ (task : nat) c (k : nat) r,
      series !! task = Some c → records c !! k = Some r → x r = Z.of_nat k.
Proof.
  intros Hr Hat.
  destruct (at_boundary_tagged _ _ _ _ Hr Hat) as (T1 & T2 & T3).
  by intros series [-> | [-> | ->]].
Qed.

Lemma one_run_boundary :
  ∃ st, at_boundary 1 99 calm_cfg st ∧ loop st = 1 ∧
        ∃ c, intervals st !! 1%nat = Some c ∧
             records c !! 0%nat = Some {| x := 0; y := 2 |}.
Proof.
  eexists. split; [|split].
  - eapply (boundary_next 1 99 calm_cfg _ (calm_run [0; 1] 1000000 0)).
    + apply boundary_first.
    + vm_compute. reflexivity.
    + vm_compute. reflexivity.
    + vm_compute. reflexivity.
  - vm_compute. reflexivity.
  - eexists. split; vm_compute; reflexivity.
Defined.

Lemma samples_tagged_with_run_witness :
  ∃ st c,
    at_boundary 1 99 calm_cfg st ∧ intervals st !! 1%nat = Some c ∧
    ∀ (k : nat) r, records c !! k = Some r → x r = Z.of_nat k.
Proof.
  destruct one_run_boundary as (st & Hat & _ & c & Hc & _).
  exists st, c. split; [exact Hat|]. split; [exact Hc|].
  intros k r.
  apply (samples_tagged_with_run 1 99 calm_cfg st ltac:(vm_compute; discriminate)
           Hat (intervals st) ltac:(by left) 1%nat c k r Hc).
Defined.

(** * How run_test ends *)

Lemma run_loop_outcome obs :
  ∀ st,
    boundary_inv st → stop st = 0 → check st = 1 →
    (∀ l, 0 <= l < loop st → ¬ violation st l) →
    nr_runs st - loop st <= Z.of_nat (length obs) →
    Forall (λ o, round_ok (nr_tasks st) (sched o)) obs →
    ∃ st',
      run_loop obs st = Ok st' ∧ boundary_inv st' ∧ loop st' = nr_runs st' ∧
      nr_tasks st' = nr_tasks st ∧ nr_runs st' <= nr_runs st ∧
      ((check st' = 1 ∧ nr_runs st' = nr_runs st ∧
        ∀ l, 0 <= l < nr_runs st' → ¬ violation st' l) ∨
       (check st' = -1 ∧ 0 < nr_runs st' ∧
        violation st' (nr_runs st' - 1) ∧
        ∀ l, 0 <= l < nr_runs st' - 1 → ¬ violation st' l)).
Proof.
  induction obs as [|o obs IH]; intros st Hinv Hstop Hcheck Hclean Hlen Hobs;
    pose proof Hinv as [Hl _]; cbn [run_loop];
    destruct (Z.ltb_spec (loop st) (nr_runs st)) as [Hopen | Hclosed];
    try (simpl in Hlen; lia);
    try (exists st; split; [done|]; split; [done|]; split; [lia|];
         split; [done|]; split; [lia|]; left;
         split; [done|]; split; [done|]; intros l ?; apply Hclean; lia).
  apply Forall_cons in Hobs as [[Hperm Hclk] Hobs].
  destruct (run_body_total o st Hinv Hopen) as (brk & st1 & Hb); [by split|].
  rewrite Hb. simpl.
  destruct (run_body_spec _ _ _ _ Hb Hinv Hopen Hperm)
    as (Et & Em & Hs & _ & Hlr & Estop & _ & _ & Hv).
  assert (stop st1 = 0) as Hstop1 by (rewrite Estop; by destruct (sigints o)).
  assert (∀ l, 0 <= l < loop st → ¬ violation st1 l) as Hclean1.
  { intros l Hln Hvl. apply (Hclean l Hln).
    eapply (violation_same st st1 l); [done|done| |exact Hvl].
    intros i. by apply Hs. }
  destruct (Hv Hstop1) as [(-> & Hviol & Hc1) | (-> & Hviol & Hc1)]; [lia|..].
  - destruct Hlr as [El Er].
    destruct (boundary_leave _ _ _ Hb Hinv Hopen Hperm) as [Hinv1 Hend].
    exists st1. split; [done|]. split; [done|]. split; [done|].
    split; [done|]. split; [lia|]. right.
    split; [done|]. split; [lia|].
    replace (nr_runs st1 - 1) with (loop st) by lia. by split.
  - destruct Hlr as [El Er].
    destruct (IH (set_loop (loop st1 + 1) st1))
      as (st' & Hrun & Hinv' & Hend & Et' & Hle & Hres).
    + by eapply boundary_step.
    + exact Hstop1.
    + simpl. lia.
    + simpl. intros l Hln.
      destruct (decide (l = loop st)) as [-> | Hne]; [exact Hviol|].
      apply Hclean1. lia.
    + simpl. simpl in Hlen. lia.
    + simpl. by rewrite Et.
    + simpl in Et', Hle, Hres. exists st'. split; [done|]. split; [done|].
      split; [done|]. split; [lia|]. split; [lia|].
      destruct Hres as [(? & ? & ?) | ?]; [left|by right].
      split; [done|]. split; [lia|done].
Qed.

Lemma run_test_outcome smin smax obs last_round cfg :
  check cfg = 1 → stop cfg = 0 → 0 <= nr_runs cfg →
  nr_runs cfg <= Z.of_nat (length obs) →
  Forall (λ o, round_ok (nr_tasks cfg) (sched o)) obs →
  Forall clock_ok last_round.*2 →
  ∃ r,
    run_test smin smax obs last_round cfg = Ok r ∧
    loop (final r) = nr_runs (final r) ∧ done (final r) = 1 ∧
    nr_tasks (final r) = nr_tasks cfg ∧
    0 <= nr_runs (final r) <= nr_runs cfg ∧
    Z.of_nat (length (report r)) = nr_runs (final r) ∧
    ((verdict r = TPASS ∧ nr_runs (final r) = nr_runs cfg ∧
      ∀ l, 0 <= l < nr_runs (final r) → ¬ violation (final r) l) ∨
     (verdict r = TFAIL ∧ 0 < nr_runs (final r) ∧
      violation (final r) (nr_runs (final r) - 1) ∧
      ∀ l, 0 <= l < nr_runs (final r) - 1 → ¬ violation (final r) l)).
Proof.
  intros Hcheck Hstop Hr Hlen Hobs Hlast. unfold run_test.
  destruct (run_loop_outcome obs (set_loop 0 (run_test_init smin smax cfg)))
    as (st' & Hloop & Hinv & Hend & Et & Hle & Hres);
    [by apply init_boundary|done|done|simpl; lia|simpl; lia|done|].
  rewrite Hloop. simpl.
  rewrite run_workers_closed by (done || lia). simpl.
  destruct (print_details_total (set_done 1 st') Hinv Hend)
    as (rows & -> & Hrows).
  simpl. eexists. split; [reflexivity|]. simpl. simpl in Et, Hle.
  destruct Hinv as [Hl _].
  split; [done|]. split; [done|]. split; [done|]. split; [lia|].
  split; [done|].
  destruct Hres as [(Hc & ? & ?) | (Hc & ? & ? & ?)]; rewrite Hc;
    [left|right]; by repeat split.
Qed.

(** X17: started as the program is ([check = 1], [stop = 0]) on a run count
    that is not negative and with clocks that let every busy loop end,
    [run_test] returns with [done] set, [loop = nr_runs], one report block
    per run on record, and never more runs than were asked for.  A pass
    means that every run asked for was carried out; a fail means that the
    last run on record is the one with the confirmed violation and that no
    run before it had one. *)
Theorem run_test_ends smin smax obs last_round cfg :
  check cfg = 1 → stop cfg = 0 → 0 <= nr_runs cfg →
  nr_runs cfg <= Z.of_nat (length obs) →
  Forall (λ o, round_ok (nr_tasks cfg) (sched o)) obs →
  Forall clock_ok last_round.*2 →
  ∃ r,
    run_test smin smax obs last_round cfg = Ok r ∧
    loop (final r) = nr_runs (final r) ∧ done (final r) = 1 ∧
    0 <= nr_runs (final r) <= nr_runs cfg ∧
    Z.of_nat (length (report r)) = nr_runs (final r) ∧
    (verdict r = TPASS → nr_runs (final r) = nr_runs cfg) ∧
    (verdict r = TFAIL →
     violation (final r) (nr_runs (final r) - 1) ∧
     ∀ l, 0 <= l < nr_runs (final r) - 1 → ¬ violation (final r) l).
Proof.
  intros Hcheck Hstop Hr Hlen Hobs Hlast.
  destruct (run_test_outcome smin smax obs last_round cfg)
    as (r & Hrun & Hl & Hd & _ & Hn & Hrows & Hres); [done..|].
  exists r. split; [done|]. split; [done|]. split; [done|]. split; [done|].
  split; [done|].
  destruct Hres as [(Hv & ? & ?) | (Hv & ? & ? & ?)]; rewrite Hv;
    split; try done; discriminate.
Qed.

Lemma late_obs_ok :
  Forall (λ o, round_ok 2 (sched o))
    [calm_run [0; 1] 1000000 0; late_run 200000000;
     calm_run [0; 1] 400000000 0].
Proof.
  constructor; [|constructor; [|constructor; [|constructor]]].
  - apply calm_run_ok; vm_compute; [discriminate|reflexivity].
  - apply late_run_ok.
  - apply calm_run_ok; vm_compute; [discriminate|reflexivity].
Defined.

Lemma calm_last_ok : Forall clock_ok calm_last.*2.
Proof.
  constructor; [|constructor; [|constructor]];
    apply pass_clock_ok; vm_compute; (discriminate || reflexivity).
Defined.

Lemma run_test_ends_witness :
  ∃ r,
    run_test 1 99
      [calm_run [0; 1] 1000000 0; late_run 200000000;
       calm_run [0; 1] 400000000 0] calm_last calm_cfg = Ok r ∧
    loop (final r) = nr_runs (final r) ∧ done (final r) = 1 ∧
    0 <= nr_runs (final r) <= nr_runs calm_cfg ∧
    Z.of_nat (length (report r)) = nr_runs (final r) ∧
    (verdict r = TPASS → nr_runs (final r) = nr_runs calm_cfg) ∧
    (verdict r = TFAIL →
     violation (final r) (nr_runs (final r) - 1) ∧
     ∀ l, 0 <= l < nr_runs (final r) - 1 → ¬ violation (final r) l).
Proof.
  apply (run_test_ends 1 99 _ calm_last calm_cfg).
  - reflexivity.
  - reflexivity.
  - vm_compute. discriminate.
  - vm_compute. discriminate.
  - apply late_obs_ok.
  - apply calm_last_ok.
Defined.

(** X18: with a single task (or none) there is no peer to compare with:
    under the same assumptions [run_test] carries out every run asked for
    and reports TPASS. *)
Theorem run_test_single_task_passes smin smax obs last_round cfg :
  nr_tasks cfg <= 1 →
  check cfg = 1 → stop cfg = 0 → 0 <= nr_runs cfg →
  nr_runs cfg <= Z.of_nat (length obs) →
  Forall (λ o, round_ok (nr_tasks cfg) (sched o)) obs →
  Forall clock_ok last_round.*2 →
  ∃ r,
    run_test smin smax obs last_round cfg = Ok r ∧
    verdict r = TPASS ∧ nr_runs (final r) = nr_runs cfg ∧
    Z.of_nat (length (report r)) = nr_runs cfg.
Proof.
  intros Hone Hcheck Hstop Hr Hlen Hobs Hlast.
  destruct (run_test_outcome smin smax obs last_round cfg)
    as (r & Hrun & _ & _ & Et & _ & Hrows & Hres); [done..|].
  exists r. split; [done|].
  destruct Hres as [(Hv & Hn & _) | (_ & _ & (i & Hi & _) & _)]; [|lia].
  split; [done|]. split; [done|]. by rewrite Hrows.
Qed.

Lemma run_test_single_task_passes_witness :
  ∃ r,
    run_test 1 99 [calm_run [0] 1000000 0; calm_run [0] 200000000 1]
      [(0, pass_clock 600000000)]
      (parse_args "l" 2 (initial_state 1)).2 = Ok r ∧
    verdict r = TPASS ∧
    nr_runs (final r) = nr_runs (parse_args "l" 2 (initial_state 1)).2 ∧
    Z.of_nat (length (report r)) =
      nr_runs (parse_args "l" 2 (initial_state 1)).2.
Proof.
  apply (run_test_single_task_passes 1 99).
  - vm_compute. discriminate.
  - reflexivity.
  - reflexivity.
  - vm_compute. discriminate.
  - vm_compute. discriminate.
  - constructor; [|constructor; [|constructor]];
      (split; [reflexivity|]; constructor; [|constructor];
       apply pass_clock_ok; vm_compute; (discriminate || reflexivity)).
  - constructor; [|constructor].
    apply pass_clock_ok; vm_compute; (discriminate || reflexivity).
Defined.

(** * What print_details prints *)

Lemma mapM_res_Ok {A B} (f : A → res B) (l : list A) bs :
  mapM f l = Ok bs → Forall2 (λ a b, f a = Ok b) l bs.
Proof.
  revert bs. induction l as [|a l IH]; intros bs H.
  - injection H as <-. constructor.
  - cbn [mapM] in H. destruct (f a) as [b|] eqn:Hb; [|discriminate].
    simpl in H. destruct (mapM f l) as [bs'|]; [|discriminate].
    simpl in H. injection H as <-. constructor; [done|by apply IH].
Qed.

Lemma mapM_seqZ_lookup {B} (f : Z → res B) n bs (i : nat) b :
  mapM f (seqZ 0 n) = Ok bs → bs !! i = Some b → f (Z.of_nat i) = Ok b.
Proof.
  intros H%mapM_res_Ok Hb.
  destruct (Forall2_lookup_r _ _ _ _ _ H Hb) as (z & Hz & Hf).
  apply lookup_seqZ in Hz as [-> _]. by rewrite Z.add_0_l in Hf.
Qed.

(** X19: when [print_details] completes, the table has one block per run
    in run order, block [i] is headed by the run index [i], and each of its
    three lines lists, task by task in ascending id, exactly the sample that
    task recorded for run [i] in the corresponding series. *)
Theorem print_details_rows st rows :
  print_details st = Ok rows →
  length rows = Z.to_nat (nr_runs st) ∧
  ∀ (i : nat) row,
    rows !! i = Some row →
    iter row = Z.of_nat i ∧
    length (row_start row) = Z.to_nat (nr_tasks st) ∧
    length (row_len row) = Z.to_nat (nr_tasks st) ∧
    length (row_loops row) = Z.to_nat (nr_tasks st) ∧
    ∀ (t : nat),
      (∀ v, row_start row !! t = Some v →
            sample (intervals st) (Z.of_nat t) (Z.of_nat i) = Ok v) ∧
      (∀ v, row_len row !! t = Some v →
            sample (intervals_length st) (Z.of_nat t) (Z.of_nat i) = Ok v) ∧
      (∀ v, row_loops row !! t = Some v →
            sample (intervals_loops st) (Z.of_nat t) (Z.of_nat i) = Ok v).
Proof.
  unfold print_details. intros H. split.
  - apply mapM_res_Ok, Forall2_length in H. by rewrite <- H, length_seqZ.
  - intros i row Hrow.
    pose proof (mapM_seqZ_lookup _ _ _ _ _ H Hrow) as Hr.
    unfold print_row in Hr.
    destruct (mapM (λ t, sample (intervals st) t (Z.of_nat i)) _)
      as [a|] eqn:Ha; [|simpl in Hr; discriminate]. simpl in Hr.
    destruct (mapM (λ t, sample (intervals_length st) t (Z.of_nat i)) _)
      as [b|] eqn:Hb; [|simpl in Hr; discriminate]. simpl in Hr.
    destruct (mapM (λ t, sample (intervals_loops st) t (Z.of_nat i)) _)
      as [c|] eqn:Hc; [|simpl in Hr; discriminate]. simpl in Hr.
    injection Hr as <-. simpl.
    split; [done|].
    split; [apply mapM_res_Ok, Forall2_length in Ha;
            by rewrite <- Ha, length_seqZ|].
    split; [apply mapM_res_Ok, Forall2_length in Hb;
            by rewrite <- Hb, length_seqZ|].
    split; [apply mapM_res_Ok, Forall2_length in Hc;
            by rewrite <- Hc, length_seqZ|].
    intros t. split; [|split]; intros v Hv.
    + exact (mapM_seqZ_lookup _ _ _ _ _ Ha Hv).
    + exact (mapM_seqZ_lookup _ _ _ _ _ Hb Hv).
    + exact (mapM_seqZ_lookup _ _ _ _ _ Hc Hv).
Qed.

Lemma print_details_rows_witness :
  ∃ rows,
    print_details preempted_state = Ok rows ∧
    length rows = 1%nat ∧
    ∀ row, rows !! 0%nat = Some row →
           iter row = 0 ∧ length (row_start row) = 2%nat.
Proof.
  destruct (print_details preempted_state) as [rows|] eqn:H;
    [|vm_compute in H; discriminate].
  exists rows. split; [reflexivity|].
  destruct (print_details_rows preempted_state rows H) as [Hlen Hrows].
  split; [exact Hlen|].
  intros row Hrow. destruct (Hrows 0%nat row Hrow) as (Hi & Hs & _).
  split; [exact Hi|exact Hs].
Defined.

(** * More on getxattr01 *)

(** X20: on a system that behaves as the test's description expects
    (ENODATA for the attribute that was never set, ERANGE when the buffer is
    smaller than the 20-byte value, and otherwise the value [setup] stored
    with its length as return value) every result of every one of the three
    test cases is a pass. *)
Theorem getxattr01_passes_when_conforming (getxattr : Getxattr01.syscall) i :
  (∀ buf sz,
     Getxattr01.err (getxattr Getxattr01.FNAME "user.nosuchkey" buf sz)
     = Getxattr01.ENODATA) →
  (∀ buf sz, sz < 20 →
     Getxattr01.err
       (getxattr Getxattr01.FNAME Getxattr01.XATTR_TEST_KEY buf sz)
     = Getxattr01.ERANGE) →
  (∀ buf sz, 20 <= sz →
     getxattr Getxattr01.FNAME Getxattr01.XATTR_TEST_KEY buf sz =
     {| Getxattr01.ret := 20; Getxattr01.err := 0;
        Getxattr01.written := Getxattr01.setup.2 |}) →
  0 <= i < 3 →
  ∃ rs tcs',
    Getxattr01.run getxattr i Getxattr01.tcases = Ok (rs, tcs') ∧
    rs ≠ [] ∧ Forall (λ r, Getxattr01.rtype r = TPASS) rs.
Proof.
  intros Hmiss Hsmall Hgood Hi.
  assert (i = 0 ∨ i = 1 ∨ i = 2) as [-> | [-> | ->]] by lia.
  - unfold Getxattr01.run. simpl. rewrite Hmiss. simpl.
    eexists _, _. split; [reflexivity|]. split; [done|]. by repeat constructor.
  - unfold Getxattr01.run. simpl.
    change "user.testkey"%string with Getxattr01.XATTR_TEST_KEY.
    rewrite Hsmall by lia. simpl.
    eexists _, _. split; [reflexivity|]. split; [done|]. by repeat constructor.
  - unfold Getxattr01.run.
    change (index Getxattr01.tcases 2) with
      (Ok {| Getxattr01.key := Getxattr01.XATTR_TEST_KEY;
             Getxattr01.value := replicate 64 Ascii.zero;
             Getxattr01.size := 63; Getxattr01.exp_err := 0 |}).
    cbn [mbind res_bind Getxattr01.key Getxattr01.value Getxattr01.size
         Getxattr01.exp_err].
    rewrite Hgood by lia.
    eexists _, _. split; [vm_compute; reflexivity|].
    split; [done|]. by repeat constructor.
Qed.

Lemma getxattr01_passes_when_conforming_witness :
  let getxattr : Getxattr01.syscall := λ _ name _ sz,
    if negb (String.eqb name Getxattr01.XATTR_TEST_KEY)
    then Getxattr01.GetxattrOut (-1) Getxattr01.ENODATA []
    else if sz <? 20 then Getxattr01.GetxattrOut (-1) Getxattr01.ERANGE []
    else Getxattr01.GetxattrOut 20 0 Getxattr01.setup.2 in
  ∃ rs tcs',
    Getxattr01.run getxattr 1 Getxattr01.tcases = Ok (rs, tcs') ∧
    rs ≠ [] ∧ Forall (λ r, Getxattr01.rtype r = TPASS) rs.
Proof.
  intros getxattr. apply (getxattr01_passes_when_conforming getxattr 1).
  - reflexivity.
  - intros buf sz Hsz. unfold getxattr.
    rewrite String.eqb_refl. simpl.
    destruct (Z.ltb_spec sz 20); [reflexivity|lia].
  - intros buf sz Hsz. unfold getxattr.
    rewrite String.eqb_refl. simpl.
    destruct (Z.ltb_spec sz 20); [lia|reflexivity].
  - lia.
Defined.

(** X21: whatever the system call does, a run of test case [i] leaves the
    table with the same number of entries, every entry with its key, size,
    expected errno and buffer length, and every entry other than [i]
    entirely as it was. *)
Theorem getxattr01_run_keeps_table (getxattr : Getxattr01.syscall) i tcs rs tcs' :
  Getxattr01.run getxattr i tcs = Ok (rs, tcs') →
  length tcs' = length tcs ∧
  ∀ (j : nat) tc,
    tcs !! j = Some tc →
    ∃ tc',
      tcs' !! j = Some tc' ∧
      Getxattr01.key tc' = Getxattr01.key tc ∧
      Getxattr01.size tc' = Getxattr01.size tc ∧
      Getxattr01.exp_err tc' = Getxattr01.exp_err tc ∧
      length (Getxattr01.value tc') = length (Getxattr01.value tc) ∧
      (j ≠ Z.to_nat i → tc' = tc).
Proof.
  unfold Getxattr01.run. intros H.
  destruct (index tcs i) as [tc0|] eqn:Htc; [|discriminate].
  cbn [mbind res_bind] in H.
  apply index_Ok in Htc as [Hi Htc].
  set (out := getxattr _ _ _ _) in H.
  set (tc1 := {| Getxattr01.key := _ |}) in H.
  assert (tcs' = <[Z.to_nat i := tc1]> tcs) as ->.
  { destruct (negb _); [by injection H as _ <-|].
    destruct (Getxattr01.memcmp _ _ _); [|discriminate].
    simpl in H. by injection H as _ <-. }
  split; [apply length_insert|].
  intros j tc Hj. destruct (decide (j = Z.to_nat i)) as [-> | Hne].
  - exists tc1. rewrite list_lookup_insert_eq by (by eapply lookup_lt_Some).
    rewrite Htc in Hj. injection Hj as <-.
    split; [done|]. unfold tc1. simpl.
    split; [done|]. split; [done|]. split; [done|].
    split; [apply fill_length|done].
  - exists tc. rewrite list_lookup_insert_ne by done. by repeat split.
Qed.

Lemma getxattr01_run_keeps_table_witness :
  let getxattr : Getxattr01.syscall :=
    λ _ _ _ _, Getxattr01.GetxattrOut 20 0 Getxattr01.setup.2 in
  ∃ rs tcs',
    Getxattr01.run getxattr 2 Getxattr01.tcases = Ok (rs, tcs') ∧
    length tcs' = 3%nat ∧ tcs' !! 0%nat = Getxattr01.tcases !! 0%nat.
Proof.
  intros getxattr.
  destruct (Getxattr01.run getxattr 2 Getxattr01.tcases)
    as [[rs tcs']|] eqn:H; [|vm_compute in H; discriminate].
  exists rs, tcs'. split; [reflexivity|].
  destruct (getxattr01_run_keeps_table getxattr 2 _ rs tcs' H) as [Hlen Hall].
  split; [exact Hlen|].
  destruct (Hall 0%nat _ eq_refl) as (tc' & -> & _ & _ & _ & _ & Hsame).
  rewrite Hsame by lia. reflexivity.
Defined.

(** * getxattr02 *)

Lemma make_nodes_spec e files :
  ∀ calls,
    (Forall (λ f, 0 <= Getxattr02.mknod e f) files ∧
     Getxattr02.make_nodes e files calls =
       (calls ++ (Getxattr02.Mknod <$> files), None)) ∨
    (∃ pre f post,
       files = pre ++ f :: post ∧
       Forall (λ g, 0 <= Getxattr02.mknod e g) pre ∧
       Getxattr02.mknod e f < 0 ∧
       Getxattr02.make_nodes e files calls =
         (calls ++ (Getxattr02.Mknod <$> pre) ++ [Getxattr02.Mknod f], Some f)).
Proof.
  induction files as [|f files IH]; intros calls.
  - left. split; [constructor|]. simpl. by rewrite app_nil_r.
  - cbn [Getxattr02.make_nodes].
    destruct (Z.ltb_spec (Getxattr02.mknod e f) 0) as [Hf | Hf].
    + right. exists [], f, files. by repeat split.
    + destruct (IH (calls ++ [Getxattr02.Mknod f]))
        as [[Hall ->] | (pre & g & post & -> & Hpre & Hg & ->)].
      * left. split; [by constructor|]. by rewrite <- app_assoc.
      * right. exists (f :: pre), g, post.
        split; [done|]. split; [by constructor|]. split; [done|].
        by rewrite <- app_assoc.
Qed.

(** X22: whenever [run] of getxattr02 reports a result, its last system
    call is the [getxattr] on the file of test case [i], and the result is
    a pass exactly when that call returned -1 with errno ENODATA (both are
    checked), a fail otherwise. *)
Theorem getxattr02_reports workdir e i calls r :
  Getxattr02.run workdir e i = Ok (Getxattr02.Reported calls r) →
  ∃ tc,
    index Getxattr02.tcases i = Ok tc ∧
    list.last calls = Some (Getxattr02.Getxattr tc Getxattr02.XATTR_TEST_KEY) ∧
    (Getxattr01.rtype r = TPASS ↔
     (Getxattr02.getxattr e tc).1 = -1 ∧
     (Getxattr02.getxattr e tc).2 = Getxattr02.ENODATA) ∧
    (Getxattr01.rtype r = TFAIL ↔
     ¬ ((Getxattr02.getxattr e tc).1 = -1 ∧
        (Getxattr02.getxattr e tc).2 = Getxattr02.ENODATA)).
Proof.
  unfold Getxattr02.run. intros H.
  destruct (if i =? 0 then _ else _) as [b | cs] eqn:Hprep.
  { injection H as H. unfold Getxattr02.prepare in Hprep.
    destruct (i =? 0); [|discriminate].
    destruct (_ <? 0); [destruct (_ =? _); by simplify_eq|].
    destruct (Getxattr02.make_nodes _ _ _) as [? [?|]]; by simplify_eq. }
  destruct (index Getxattr02.tcases i) as [tc|]; [|discriminate].
  cbn [mbind res_bind] in H. exists tc. split; [done|].
  destruct (Getxattr02.getxattr e tc) as [ret err]. simpl.
  destruct (Z.eqb_spec ret (-1)) as [Hr | Hr];
    destruct (Z.eqb_spec err Getxattr02.ENODATA) as [He | He];
    simpl in H; injection H as <- <-; rewrite last_snoc; simpl;
    (split; [done|]); split; split; try done; try (by intros [? ?]);
    try (intros Hn; by destruct Hn); by intros _ [? ?].
Qed.

Lemma getxattr02_reports_witness :
  let e := {| Getxattr02.setxattr := (0, 0); Getxattr02.mknod := λ _, 0;
              Getxattr02.getxattr := λ _, (-1, 61) |} in
  ∃ calls r tc,
    Getxattr02.run "/tmp/mntpoint" e 2 = Ok (Getxattr02.Reported calls r) ∧
    index Getxattr02.tcases 2 = Ok tc ∧ tc = Getxattr02.BLK ∧
    Getxattr01.rtype r = TPASS.
Proof.
  intros e.
  destruct (Getxattr02.run "/tmp/mntpoint" e 2) as [[calls r | ? ?]|] eqn:H;
    [|vm_compute in H; discriminate..].
  destruct (getxattr02_reports _ e 2 calls r H) as (tc & Htc & _ & Hp & _).
  exists calls, r, tc. split; [reflexivity|]. split; [exact Htc|].
  split; [by injection Htc as <-|]. apply Hp. by injection Htc as <-.
Defined.



(** X24: in the first test case, when the probing [setxattr] fails the
    test is broken off at once: as TCONF exactly when the errno is ENOTSUP,
    as TBROK otherwise; the probe file is not unlinked, no special file is
    created and [getxattr] is not called. *)
Theorem getxattr02_probe_fails workdir e :
  (Getxattr02.setxattr e).1 < 0 →
  Getxattr02.run workdir e 0 =
    Ok (Getxattr02.Broke
          [Getxattr02.Chdir workdir; Getxattr02.Creat "testfile";
           Getxattr02.Close;
           Getxattr02.Setxattr "testfile" "user.test" "test"]
          (if decide ((Getxattr02.setxattr e).2 = Getxattr02.ENOTSUP)
           then Getxattr02.TCONF else Getxattr02.TBROK)).
Proof.
  intros Hf. unfold Getxattr02.run, Getxattr02.prepare. simpl.
  destruct (Z.ltb_spec (Getxattr02.setxattr e).1 0); [|lia].
  destruct (Z.eqb_spec (Getxattr02.setxattr e).2 Getxattr02.ENOTSUP).
  - by rewrite decide_True.
  - by rewrite decide_False.
Qed.

Lemma getxattr02_probe_fails_witness :
  let e := {| Getxattr02.setxattr := (-1, 95); Getxattr02.mknod := λ _, 0;
              Getxattr02.getxattr := λ _, (-1, 61) |} in
  Getxattr02.run "/tmp/mntpoint" e 0 =
    Ok (Getxattr02.Broke
          [Getxattr02.Chdir "/tmp/mntpoint"; Getxattr02.Creat "testfile";
           Getxattr02.Close;
           Getxattr02.Setxattr "testfile" "user.test" "test"]
          Getxattr02.TCONF).
Proof.
  intros e. rewrite (getxattr02_probe_fails "/tmp/mntpoint" e) by (simpl; lia).
  reflexivity.
Defined.

(** X25: in the first test case, once the probe has succeeded, the four
    special files are created in the order FIFO, character device, block
    device, socket.  If all four are created, [getxattr] is called on the
    FIFO and a result is reported; if one cannot be created the test is
    broken off as TBROK right after that [mknod], no later file is created
    and [getxattr] is not called. *)
Theorem getxattr02_first_case workdir e :
  0 <= (Getxattr02.setxattr e).1 →
  let probe := [Getxattr02.Chdir workdir; Getxattr02.Creat "testfile";
                Getxattr02.Close;
                Getxattr02.Setxattr "testfile" "user.test" "test";
                Getxattr02.Unlink "testfile"] in
  (Forall (λ f, 0 <= Getxattr02.mknod e f) Getxattr02.tcases ∧
   ∃ r,
     Getxattr02.run workdir e 0 =
       Ok (Getxattr02.Reported
             (probe ++ (Getxattr02.Mknod <$> Getxattr02.tcases) ++
              [Getxattr02.Getxattr Getxattr02.FIFO Getxattr02.XATTR_TEST_KEY])
             r)) ∨
  (∃ pre f post,
     Getxattr02.tcases = pre ++ f :: post ∧
     Forall (λ g, 0 <= Getxattr02.mknod e g) pre ∧
     Getxattr02.mknod e f < 0 ∧
     Getxattr02.run workdir e 0 =
       Ok (Getxattr02.Broke
             (probe ++ (Getxattr02.Mknod <$> pre) ++ [Getxattr02.Mknod f])
             Getxattr02.TBROK)).
Proof.
  intros Hp probe. unfold Getxattr02.run, Getxattr02.prepare.
  change (0 =? 0) with true. cbv iota.
  destruct (Z.ltb_spec (Getxattr02.setxattr e).1 0); [lia|].
  change [Getxattr02.FIFO; Getxattr02.CHR; Getxattr02.BLK; Getxattr02.SOCK]
    with Getxattr02.tcases.
  destruct (make_nodes_spec e Getxattr02.tcases
              (([Getxattr02.Chdir workdir] ++
                [Getxattr02.Creat "testfile"; Getxattr02.Close;
                 Getxattr02.Setxattr "testfile" "user.test" "test"]) ++
               [Getxattr02.Unlink "testfile"]))
    as [[Hall ->] | (pre & f & post & Hfiles & Hpre & Hf & ->)].
  - left. split; [done|].
    change (index Getxattr02.tcases 0) with (Ok Getxattr02.FIFO).
    cbn [mbind res_bind].
    destruct (Getxattr02.getxattr e Getxattr02.FIFO) as [ret err].
    destruct ((ret =? -1) && (err =? Getxattr02.ENODATA));
      eexists; by rewrite <- !app_assoc.
  - right. by exists pre, f, post.
Qed.

Lemma getxattr02_first_case_witness :
  let e := {| Getxattr02.setxattr := (0, 0);
              Getxattr02.mknod := λ f,
                if String.eqb f Getxattr02.BLK then -1 else 0;
              Getxattr02.getxattr := λ _, (-1, 61) |} in
  ∃ calls,
    Getxattr02.run "/tmp/mntpoint" e 0 =
      Ok (Getxattr02.Broke calls Getxattr02.TBROK) ∧
    list.last calls = Some (Getxattr02.Mknod Getxattr02.BLK).
Proof.
  intros e.
  destruct (getxattr02_first_case "/tmp/mntpoint" e ltac:(simpl; lia))
    as [[Hall _] | (pre & f & post & Hfiles & Hpre & Hf & Hrun)].
  - exfalso. apply Forall_cons in Hall as [_ Hall].
    apply Forall_cons in Hall as [_ Hall].
    apply Forall_cons in Hall as [Hblk _]. vm_compute in Hblk. by apply Hblk.
  - eexists. split; [vm_compute; reflexivity|]. reflexivity.
Defined.

(** * setup of getxattr02 *)

Lemma strlen_bounds s :
  0 <= Getxattr01.strlen s <= Z.of_nat (length s).
Proof.
  induction s as [|c s IH]; simpl; [lia|].
  destruct (Ascii.eqb c Ascii.zero); lia.
Qed.

Lemma strlen_chars_app s t :
  Getxattr01.strlen (Getxattr02.chars s ++ t) =
  Getxattr01.strlen s + Getxattr01.strlen t.
Proof.
  unfold Getxattr02.chars. induction s as [|c s IH]; [done|].
  cbn [Getxattr01.strlen].
  destruct (Ascii.eqb c Ascii.zero) eqn:Hc; [done|].
  pose proof (strlen_bounds s).
  replace (Z.to_nat (1 + Getxattr01.strlen s))
    with (S (Z.to_nat (Getxattr01.strlen s))) by lia.
  cbn [take app Getxattr01.strlen]. rewrite Hc, IH. lia.
Qed.

(** X26: the array [setup] of getxattr02 writes fits the allocation
    exactly: its length, terminator included, is the size asked for,
    [strlen(cwd) + strlen(MNTPOINT) + 2], and as a C string it has that
    length minus one, being the directory, a slash and the mount point. *)
Theorem getxattr02_setup_fits cwd :
  Z.of_nat (length (Getxattr02.setup cwd).2) = (Getxattr02.setup cwd).1 ∧
  Getxattr01.strlen (Getxattr02.setup cwd).2 = (Getxattr02.setup cwd).1 - 1 ∧
  Getxattr02.chars (Getxattr02.setup cwd).2 =
    Getxattr02.chars cwd ++ list_ascii_of_string "/mntpoint".
Proof.
  unfold Getxattr02.setup. cbn [fst snd].
  pose proof (strlen_bounds cwd) as Hb.
  assert (length (Getxattr02.chars cwd) = Z.to_nat (Getxattr01.strlen cwd))
    as Hlen by (unfold Getxattr02.chars; rewrite length_take; lia).
  change (Getxattr02.chars (Getxattr01.literal Getxattr02.MNTPOINT))
    with (list_ascii_of_string "mntpoint").
  change (Getxattr01.strlen (Getxattr01.literal Getxattr02.MNTPOINT)) with 8.
  assert (Getxattr01.strlen
            (Getxattr02.chars cwd ++
             ["/"%char] ++ list_ascii_of_string "mntpoint" ++ [Ascii.zero])
          = Getxattr01.strlen cwd + 9) as Hs.
  { by rewrite strlen_chars_app. }
  split; [|split].
  - rewrite length_app, Hlen. simpl. lia.
  - rewrite Hs. lia.
  - unfold Getxattr02.chars at 1. rewrite Hs.
    replace (Z.to_nat (Getxattr01.strlen cwd + 9))
      with (length (Getxattr02.chars cwd) + 9)%nat by lia.
    rewrite take_app_add'; [|done]. reflexivity.
Qed.
